(** * Thronos BTC API adapter: upstream resolution engine

    A shallow embedding of [src/main.py]: the shared rate limiter
    ([_rate_limit]), the ordered fail-over fetch ([_fetch_from_upstreams]),
    the request signature ([_cache_key]), the TTL cache
    ([_get_cached_or_fetch]) and the endpoints built on them.

    Conventions.
    - Wall-clock readings ([time.time()]) are rationals [Q]; straight-line
      code takes no time, the clock moves only where the coroutine awaits
      (the sleep of the rate limiter and the outbound GET).
    - A coroutine is a state transformer on [World] that returns a value or
      raises ([M]).  The module-level globals [_cache] and
      [_last_request_time] are fields of [World]; so are the observable
      effects on the outside (the URLs requested, the warnings logged, the
      sleeps performed).
    - [httpx] is not part of the repository: what the n-th outbound GET
      answers and how long it takes is given by an environment [Env].
    - The interleaving of several coroutines matters for the rate limiter
      only; it is modelled separately as a transition system
      ([Module RateGate]). *)

From Stdlib Require Import ZArith QArith Qabs Lqa String Ascii List.
From Stdlib Require Import Floats.SpecFloat.
From stdpp Require Import gmap strings list sorting.

Local Open Scope Z_scope.

(** ** Python values *)

(** The values a payload can be: what [resp.json()] can produce, and [str]
    for [resp.text]. *)
Inductive pyval : Type :=
| PyNone
| PyBool (b : bool)
| PyInt (n : Z)
| PyFloat (f : spec_float)
| PyStr (s : string)
| PyList (items : list pyval)
| PyDict (items : list (string * pyval)).

(** The exceptions that occur in the module. *)
Inductive exn : Type :=
| HTTPException (status_code : Z) (detail : string)
| TransportFailure (msg : string)      (* anything raised by [client.get] *)
| JSONDecodeError (msg : string)       (* raised by [resp.json()] *)
| ValueError
| TypeError
| OverflowError.

Inductive result (A : Type) : Type :=
| Ok (a : A)
| Raise (e : exn).
Arguments Ok {A} a.
Arguments Raise {A} e.

(** ** The transport *)

(** An [httpx.Response], as far as the module looks at it: the status, the
    [content-type] header (if any), [resp.text], and what [resp.json()]
    does. *)
Record Response : Type := {
  status_code : Z;
  content_type_header : option string;
  text : string;
  json : result pyval
}.

Inductive Outcome : Type :=
| Failed (e : exn)             (* [client.get] raised *)
| Responded (resp : Response).

(** The outside world: the answer to the n-th outbound GET of the run
    (n counted from 0), the time that GET takes, and by how much the n-th
    [asyncio.sleep] oversleeps. *)
Record Env : Type := {
  http_get : nat -> string -> Outcome;
  latency : nat -> string -> Q;
  sleep_lag : nat -> Q
}.

(** ** Configuration (read from the process environment at start-up) *)

Record Config : Type := {
  UPSTREAMS : list string;
  CACHE_TTL : Z;
  RATE_LIMIT_RPS : Q
}.

(** ** Small helpers for Python built-ins *)

(** [needle in hay] on [str]. *)
Fixpoint str_contains (needle hay : string) : bool :=
  String.prefix needle hay ||
  match hay with
  | EmptyString => false
  | String _ rest => str_contains needle rest
  end.

(** [x < y] on clock readings. *)
Definition Qlt_bool (x y : Q) : bool := negb (Qle_bool y x).

(** *** White space

    What [str.strip()] removes from ASCII text: tab to carriage return, the
    separators 0x1C to 0x1F, and the space.  (Text is modelled as ASCII;
    [str.strip()] also removes the white space of other scripts.) *)
Definition is_space (c : ascii) : bool :=
  let n := nat_of_ascii c in
  ((n =? 32) || ((9 <=? n) && (n <=? 13)) || ((28 <=? n) && (n <=? 31)))%nat.

Definition digit_of (c : ascii) : option Z :=
  let n := nat_of_ascii c in
  if ((48 <=? n) && (n <=? 57))%nat then Some (Z.of_nat n - 48) else None.

Fixpoint lstrip (s : string) : string :=
  match s with
  | EmptyString => EmptyString
  | String c rest => if is_space c then lstrip rest else s
  end.

Fixpoint rstrip (s : string) : string :=
  match s with
  | EmptyString => EmptyString
  | String c rest =>
      match rstrip rest with
      | EmptyString => if is_space c then EmptyString else String c EmptyString
      | rest' => String c rest'
      end
  end.

(** *** The built-in [int(x)]

    On ASCII [str]: the white space of the C locale is stripped at both ends
    (tab to carriage return and the space; the separators 0x1C to 0x1F are
    not), then come an optional sign and decimal digits, where single
    underscores may separate digits.  (Python also accepts the decimal
    digits of other scripts, and from version 3.11 on refuses texts of more
    than 4300 digits by default; neither is modelled, and nothing proved
    below depends on which texts are accepted.) *)
Definition is_c_space (c : ascii) : bool :=
  let n := nat_of_ascii c in
  ((n =? 32) || ((9 <=? n) && (n <=? 13)))%nat.

Fixpoint int_lstrip (s : string) : string :=
  match s with
  | EmptyString => EmptyString
  | String c rest => if is_c_space c then int_lstrip rest else s
  end.

Fixpoint int_rstrip (s : string) : string :=
  match s with
  | EmptyString => EmptyString
  | String c rest =>
      match int_rstrip rest with
      | EmptyString => if is_c_space c then EmptyString else String c EmptyString
      | rest' => String c rest'
      end
  end.

Fixpoint parse_digits (acc : Z) (after_digit : bool) (s : string) : option Z :=
  match s with
  | EmptyString => if after_digit then Some acc else None
  | String c rest =>
      match digit_of c with
      | Some d => parse_digits (10 * acc + d) true rest
      | None =>
          if (Ascii.eqb c "_" && after_digit)%bool
          then parse_digits acc false rest
          else None
      end
  end.

Definition int_of_str (s : string) : result Z :=
  let body := int_rstrip (int_lstrip s) in
  let signed :=
    match body with
    | String "-" rest => option_map Z.opp (parse_digits 0 false rest)
    | String "+" rest => parse_digits 0 false rest
    | _ => parse_digits 0 false body
    end in
  match signed with
  | Some n => Ok n
  | None => Raise ValueError
  end.

(** On [float]: truncation towards zero; infinities raise [OverflowError],
    NaN raises [ValueError]. *)
Definition int_of_float (f : spec_float) : result Z :=
  match f with
  | S754_zero _ => Ok 0
  | S754_infinity _ => Raise OverflowError
  | S754_nan => Raise ValueError
  | S754_finite s m e =>
      let magnitude :=
        if 0 <=? e then Z.pos m * 2 ^ e else Z.pos m / 2 ^ (- e) in
      Ok (if s then - magnitude else magnitude)
  end.

Definition py_int (x : pyval) : result Z :=
  match x with
  | PyInt n => Ok n
  | PyBool b => Ok (if b then 1 else 0)
  | PyFloat f => int_of_float f
  | PyStr s => int_of_str s
  | PyNone | PyList _ | PyDict _ => Raise TypeError
  end.

(** ** Ambient state and the coroutine monad *)

Section Engine.

(** The values passed as arguments of an operation ([Any] in the source;
    every endpoint passes [str]).  They are used as dictionary keys, so they
    are hashable and have a decidable equality. *)
Context {Arg : Type} `{Countable Arg}.

(** The type of [_cache_key]'s result. *)
Definition Key : Type := string * list Arg * list (string * Arg).

(** The module's globals, the clock, and the effects seen from outside. *)
Record World : Type := {
  clock : Q;                              (* what [time.time()] returns *)
  _last_request_time : Q;
  _cache : gmap Key (pyval * Q);
  requests : list string;                 (* URLs of the GETs sent, in order *)
  warnings : list (string * exn);         (* [logger.warning] calls, in order *)
  sleeps : list Q                         (* [asyncio.sleep] calls, in order *)
}.

Definition M (A : Type) : Type := World -> result A * World.

#[export] Instance M_ret : MRet M := fun A a w => (Ok a, w).

#[export] Instance M_bind : MBind M := fun A B k c w =>
  match c w with
  | (Ok a, w') => k a w'
  | (Raise e, w') => (Raise e, w')
  end.

Definition raise {A : Type} (e : exn) : M A := fun w => (Raise e, w).

(** [try: body  except Exception as exc: handler exc] *)
Definition try_except {A : Type} (body : M A) (handler : exn -> M A) : M A :=
  fun w =>
    match body w with
    | (Ok a, w') => (Ok a, w')
    | (Raise e, w') => handler e w'
    end.

Variable cfg : Config.
Variable env : Env.

(** *** Primitive effects *)

Definition time_time : M Q := fun w => (Ok (clock w), w).

Definition asyncio_sleep (delay : Q) : M unit := fun w =>
  (Ok tt,
   {| clock := clock w + (delay + sleep_lag env (length (sleeps w)));
      _last_request_time := _last_request_time w;
      _cache := _cache w;
      requests := requests w;
      warnings := warnings w;
      sleeps := sleeps w ++ [delay] |}).

Definition get_last_request_time : M Q := fun w => (Ok (_last_request_time w), w).

Definition set_last_request_time (t : Q) : M unit := fun w =>
  (Ok tt,
   {| clock := clock w;
      _last_request_time := t;
      _cache := _cache w;
      requests := requests w;
      warnings := warnings w;
      sleeps := sleeps w |}).

(** [await client.get(url, headers=headers)] with a fresh client; the fixed
    [User-Agent] header and the 10 s timeout are the environment's
    business. *)
Definition client_get (url : string) : M Response := fun w =>
  let n := length (requests w) in
  let w' := {| clock := clock w + latency env n url;
               _last_request_time := _last_request_time w;
               _cache := _cache w;
               requests := requests w ++ [url];
               warnings := warnings w;
               sleeps := sleeps w |} in
  match http_get env n url with
  | Failed e => (Raise e, w')
  | Responded resp => (Ok resp, w')
  end.

Definition logger_warning (url : string) (exc : exn) : M unit := fun w =>
  (Ok tt,
   {| clock := clock w;
      _last_request_time := _last_request_time w;
      _cache := _cache w;
      requests := requests w;
      warnings := warnings w ++ [(url, exc)];
      sleeps := sleeps w |}).

(** *** [_rate_limit] (run by one coroutine with the lock free)

    The interval and the wait are computed here in exact arithmetic; the
    code computes them in binary64.  What is proved about the fetch and the
    cache uses only that the call returns and what it leaves alone, never
    how long it waits. *)
Definition _rate_limit : M unit :=
  if Qle_bool (RATE_LIMIT_RPS cfg) 0 then mret tt
  else
    now ← time_time;
    last ← get_last_request_time;
    let min_interval := (1 / RATE_LIMIT_RPS cfg)%Q in
    let wait_time := (min_interval - (now - last))%Q in
    (if Qlt_bool 0 wait_time then asyncio_sleep wait_time else mret tt) ;;
    t ← time_time;
    set_last_request_time t.

(** *** [_fetch_from_upstreams] *)

(** Lines 97-101: what a 200 response is turned into. *)
Definition read_payload (resp : Response) : result pyval :=
  let content_type := default EmptyString (content_type_header resp) in
  if str_contains "application/json" content_type
  then json resp
  else Ok (PyStr (text resp)).

Definition lift {A : Type} (r : result A) : M A := fun w => (r, w).

(** What one upstream's answer contributes: the payload if the answer is a
    200 whose payload can be read, nothing otherwise. *)
Definition accepted (o : Outcome) : option pyval :=
  match o with
  | Failed _ => None
  | Responded resp =>
      if status_code resp =? 200
      then match read_payload resp with
           | Ok v => Some v
           | Raise _ => None
           end
      else None
  end.

(** The upstream failed in the sense of the fail-over policy: the GET
    raised, or the status is not 200. *)
Definition failed_or_rejected (o : Outcome) : Prop :=
  match o with
  | Failed _ => True
  | Responded resp => status_code resp <> 200
  end.

(** The URLs the loop requests for a list of bases. *)
Definition urls (path : string) (bases : list string) : list string :=
  map (fun base => base +:+ path) bases.

(** One iteration of the loop: [Some v] where the source returns [v],
    [None] where control reaches the next iteration. *)
Definition attempt (url : string) : M (option pyval) :=
  try_except
    (_rate_limit ;;
     resp ← client_get url;
     if status_code resp =? 200
     then v ← lift (read_payload resp); mret (Some v)
     else mret None)
    (fun exc => logger_warning url exc ;; mret None).

Fixpoint fetch_loop (path : string) (bases : list string) : M pyval :=
  match bases with
  | [] => raise (HTTPException 502 "All upstreams failed")
  | base :: rest =>
      r ← attempt (base +:+ path);
      match r with
      | Some v => mret v
      | None => fetch_loop path rest
      end
  end.

Definition _fetch_from_upstreams (path : string) : M pyval :=
  fetch_loop path (UPSTREAMS cfg).

(** *** [_cache_key] *)

(** [sorted(kwargs.items())]: the items of a dictionary have distinct
    keys, so the order of the pairs is the order of their keys. *)
Fixpoint insert_item (x : string * Arg) (l : list (string * Arg))
  : list (string * Arg) :=
  match l with
  | [] => [x]
  | y :: l' =>
      if String.leb (fst x) (fst y) then x :: l else y :: insert_item x l'
  end.

Definition sorted_items (kwargs : list (string * Arg)) : list (string * Arg) :=
  foldr insert_item [] kwargs.

(** The order [sorted] puts the items in. *)
Definition item_le (x y : string * Arg) : Prop := String.le (fst x) (fst y).

Definition _cache_key (name : string) (args : list Arg)
    (kwargs : list (string * Arg)) : Key :=
  (name, args, sorted_items kwargs).

(** *** The cache *)

(** Lines 122-125: the result held for [key], if it is recent. *)
Definition cache_lookup (c : gmap Key (pyval * Q)) (key : Key) (now : Q)
  : option pyval :=
  match c !! key with
  | Some (result, ts) =>
      if Qlt_bool (now - ts) (inject_Z (CACHE_TTL cfg)) then Some result else None
  | None => None
  end.

(** Line 128. *)
Definition cache_store (c : gmap Key (pyval * Q)) (key : Key) (result : pyval)
    (now : Q) : gmap Key (pyval * Q) :=
  <[key := (result, now)]> c.

Definition get_cache : M (gmap Key (pyval * Q)) := fun w => (Ok (_cache w), w).

Definition set_cache (c : gmap Key (pyval * Q)) : M unit := fun w =>
  (Ok tt,
   {| clock := clock w;
      _last_request_time := _last_request_time w;
      _cache := c;
      requests := requests w;
      warnings := warnings w;
      sleeps := sleeps w |}).

(** *** [_get_cached_or_fetch] *)
Definition _get_cached_or_fetch (name : string)
    (path_func : list Arg -> list (string * Arg) -> M pyval)
    (args : list Arg) (kwargs : list (string * Arg)) : M pyval :=
  let key := _cache_key name args kwargs in
  now ← time_time;
  c ← get_cache;
  match cache_lookup c key now with
  | Some result => mret result
  | None =>
      result ← path_func args kwargs;
      c' ← get_cache;
      set_cache (cache_store c' key result now) ;;
      mret result
  end.

End Engine.

Arguments World Arg {_ _}.
Arguments M Arg {_ _} A.

(** ** The endpoints *)

(** Lines 145-148 of [get_tip_height]:
    [try: return int(data)  except (ValueError, TypeError): return data]. *)
Definition int_or_raw (data : pyval) : result pyval :=
  match py_int data with
  | Ok n => Ok (PyInt n)
  | Raise ValueError | Raise TypeError => Ok data
  | Raise e => Raise e
  end.

Section Endpoints.

Variable cfg : Config.
Variable env : Env.

(** The local [async def fetch(): ...] and [async def fetch(x: str): ...],
    called as [path_func( *args, **kwargs)]. *)
Definition closure0 (body : M string pyval)
  : list string -> list (string * string) -> M string pyval :=
  fun args kwargs =>
    match args, kwargs with
    | [], [] => body
    | _, _ => raise TypeError
    end.

Definition closure1 (param : string) (body : string -> M string pyval)
  : list string -> list (string * string) -> M string pyval :=
  fun args kwargs =>
    match args, kwargs with
    | [x], [] => body x
    | [], [(k, x)] => if String.eqb k param then body x else raise TypeError
    | _, _ => raise TypeError
    end.

Definition get_tip_height : M string pyval :=
  let fetch := closure0 (_fetch_from_upstreams cfg env "/blocks/tip/height") in
  data ← _get_cached_or_fetch cfg "tip_height" fetch [] [];
  lift (int_or_raw data).

Definition get_block_hash (height : string) : M string pyval :=
  let fetch := closure1 "h"
    (fun h => _fetch_from_upstreams cfg env ("/block-height/" +:+ h)) in
  _get_cached_or_fetch cfg "block_height" fetch [height] [].

Definition get_block (block_hash : string) : M string pyval :=
  let fetch := closure1 "bh"
    (fun bh => _fetch_from_upstreams cfg env ("/block/" +:+ bh)) in
  _get_cached_or_fetch cfg "block" fetch [block_hash] [].

Definition get_transaction (txid : string) : M string pyval :=
  let fetch := closure1 "t"
    (fun t => _fetch_from_upstreams cfg env ("/tx/" +:+ t)) in
  _get_cached_or_fetch cfg "tx" fetch [txid] [].

Definition get_utxo (address : string) : M string pyval :=
  let fetch := closure1 "addr"
    (fun addr => _fetch_from_upstreams cfg env ("/address/" +:+ addr +:+ "/utxo")) in
  _get_cached_or_fetch cfg "utxo" fetch [address] [].

Definition get_address_txs (address : string) : M string pyval :=
  let fetch := closure1 "addr"
    (fun addr => _fetch_from_upstreams cfg env ("/address/" +:+ addr +:+ "/txs")) in
  _get_cached_or_fetch cfg "address_txs" fetch [address] [].

End Endpoints.

(** What a caller of a pass-through endpoint for [path] can see: a value,
    or the 502 with the cache as it was; and GETs to a prefix of the
    upstreams' URLs for that path only. *)
Definition served_or_502 (cfg : Config) (path : string) (w : World string)
    (r : result pyval * World string) : Prop :=
  ((exists v, r.1 = Ok v) \/
   (r.1 = Raise (HTTPException 502 "All upstreams failed") /\
    _cache r.2 = _cache w)) /\
  exists k,
    (k <= length (UPSTREAMS cfg))%nat /\
    requests r.2 = requests w ++ urls path (take k (UPSTREAMS cfg)).

(** ** The rate gate under concurrency

    Several calls of [_rate_limit] may be in flight on the event loop.  Each
    call is at one of the control points below; an [action] either lets
    time pass or lets one call run up to its next control point.  The
    control points are finer than the event loop's (which switches
    coroutines at [await] only), so every schedule of the event loop is
    among the schedules considered here.  As in [_rate_limit] above, the
    wait is computed in exact arithmetic; what is proved about the gate (who
    holds the lock, who touches the time stamp, that the time stamp does not
    go back) does not depend on the value of the wait. *)

Module RateGate.

Inductive pc : Type :=
| Start                   (* called, line 63 not yet run *)
| Locked                  (* holds [_rate_lock], before line 66 *)
| Sleeping (until : Q)    (* in [asyncio.sleep], due at [until] *)
| Waking                  (* before line 71 *)
| Done (t : Q).           (* returned, at time [t] *)

Record state : Type := {
  time : Q;                  (* [time.time()] *)
  last_call : Q;             (* [_last_request_time] *)
  holder : option nat;       (* who holds [_rate_lock] *)
  calls : list pc
}.

(** What a step does to [_last_request_time]. *)
Inductive label : Type :=
| Silent
| ReadsLast (i : nat)
| WritesLast (i : nat).

Inductive action : Type :=
| Tick (d : Q)      (* [d] seconds pass *)
| Run (i : nat).    (* call [i] runs to its next control point *)

Definition init (n : nat) (t0 l0 : Q) : state :=
  {| time := t0; last_call := l0; holder := None; calls := replicate n Start |}.

Definition set_call (i : nat) (p : pc) (s : state) : state :=
  {| time := time s; last_call := last_call s; holder := holder s;
     calls := <[i := p]> (calls s) |}.

Section Steps.

Variable cfg : Config.

Definition exec (a : action) (s : state) : option (label * state) :=
  match a with
  | Tick d =>
      if Qle_bool 0 d
      then Some (Silent,
                 {| time := time s + d; last_call := last_call s;
                    holder := holder s; calls := calls s |})
      else None
  | Run i =>
      match calls s !! i with
      | Some Start =>
          if Qle_bool (RATE_LIMIT_RPS cfg) 0
          then Some (Silent, set_call i (Done (time s)) s)
          else
            match holder s with
            | None =>
                Some (Silent,
                      {| time := time s; last_call := last_call s;
                         holder := Some i; calls := <[i := Locked]> (calls s) |})
            | Some _ => None     (* waits for the lock *)
            end
      | Some Locked =>
          let now := time s in
          let min_interval := (1 / RATE_LIMIT_RPS cfg)%Q in
          let wait_time := (min_interval - (now - last_call s))%Q in
          Some (ReadsLast i,
                set_call i (if Qlt_bool 0 wait_time
                            then Sleeping (now + wait_time) else Waking) s)
      | Some (Sleeping until) =>
          if Qle_bool until (time s)
          then Some (Silent, set_call i Waking s)
          else None              (* still asleep *)
      | Some Waking =>
          Some (WritesLast i,
                {| time := time s; last_call := time s;
                   holder := None; calls := <[i := Done (time s)]> (calls s) |})
      | Some (Done _) | None => None
      end
  end.

Fixpoint run (schedule : list action) (s : state) : option state :=
  match schedule with
  | [] => Some s
  | a :: rest =>
      match exec a s with
      | Some (_, s') => run rest s'
      | None => None
      end
  end.

End Steps.

Definition touches (l : label) (i : nat) : Prop :=
  l = ReadsLast i \/ l = WritesLast i.

(** The call is inside [async with _rate_lock]. *)
Definition in_gate (p : pc) : bool :=
  match p with
  | Locked | Sleeping _ | Waking => true
  | Start | Done _ => false
  end.

End RateGate.

(** ** Start-up configuration: the list of upstreams (line 40)

    [[u.rstrip("/") for u in os.getenv("UPSTREAMS", default).split(",")
      if u.strip()]] *)

(** [s.split(",")]: one piece more than there are commas. *)
Fixpoint split_comma (s : string) : list string :=
  match s with
  | EmptyString => [EmptyString]
  | String c rest =>
      if Ascii.eqb c ","
      then EmptyString :: split_comma rest
      else match split_comma rest with
           | piece :: pieces => String c piece :: pieces
           | [] => [String c EmptyString]
           end
  end.

(** [u.strip()] *)
Definition strip (u : string) : string := rstrip (lstrip u).

(** The truth value of a [str]: it is not empty. *)
Definition truthy (u : string) : bool :=
  match u with
  | EmptyString => false
  | String _ _ => true
  end.

(** [u.rstrip("/")] *)
Fixpoint rstrip_slash (u : string) : string :=
  match u with
  | EmptyString => EmptyString
  | String c rest =>
      match rstrip_slash rest with
      | EmptyString => if Ascii.eqb c "/" then EmptyString else String c EmptyString
      | rest' => String c rest'
      end
  end.

Definition parse_upstreams (raw : string) : list string :=
  map rstrip_slash (List.filter (fun u => truthy (strip u)) (split_comma raw)).

(** [os.getenv("UPSTREAMS", "https://blockstream.info/api")], parsed. *)
Definition upstreams_from_env (value : option string) : list string :=
  parse_upstreams (default "https://blockstream.info/api"%string value).

(** [",".join(l)] *)
Fixpoint join_comma (l : list string) : string :=
  match l with
  | [] => EmptyString
  | [u] => u
  | u :: rest => u +:+ String "," (join_comma rest)
  end.

(** The characters of a string. *)
Fixpoint chars (s : string) : list ascii :=
  match s with
  | EmptyString => []
  | String c rest => c :: chars rest
  end.

(** ** More on the rate gate *)

(** The lock is held exactly by the call inside the gate. *)
Record lock_inv (s : RateGate.state) : Prop := {
  lock_inside : forall i p,
    RateGate.calls s !! i = Some p -> RateGate.in_gate p = true ->
    RateGate.holder s = Some i;
  lock_held : forall i,
    RateGate.holder s = Some i ->
    exists p, RateGate.calls s !! i = Some p /\ RateGate.in_gate p = true
}.

(** ** Concrete scenarios *)

Module Scenario.

Local Open Scope string_scope.

(** A freshly started process at time 1000: nothing cached, nothing sent. *)
Definition fresh : World string :=
  {| clock := 1000; _last_request_time := 0; _cache := ∅;
     requests := []; warnings := []; sleeps := [] |}.

Definition three_upstreams : Config :=
  {| UPSTREAMS := ["https://a.example/api"; "https://b.example/api";
                   "https://c.example/api"];
     CACHE_TTL := 30;
     RATE_LIMIT_RPS := 5 |}.

Definition two_upstreams : Config :=
  {| UPSTREAMS := ["https://a.example/api"; "https://b.example/api"];
     CACHE_TTL := 30;
     RATE_LIMIT_RPS := 5 |}.

Definition no_upstreams : Config :=
  {| UPSTREAMS := []; CACHE_TTL := 30; RATE_LIMIT_RPS := 5 |}.

Definition host_is (host url : string) : bool := String.prefix host url.

Definition dquote : string := String (ascii_of_nat 34) EmptyString.

Definition plain (status : Z) (body : string) : Outcome :=
  Responded {| status_code := status;
               content_type_header := Some "text/plain";
               text := body;
               json := Raise (JSONDecodeError "Expecting value") |}.

(** a times out, b answers 503, c answers 200 with the JSON object
    [{"height": 800000}]; every GET takes two seconds. *)
Definition third_answers : Env :=
  {| http_get := fun _ url =>
       if host_is "https://a.example" url then Failed (TransportFailure "timed out")
       else if host_is "https://b.example" url then plain 503 "Service Unavailable"
       else Responded {| status_code := 200;
                         content_type_header := Some "application/json";
                         text := "{" +:+ dquote +:+ "height" +:+ dquote +:+ ": 800000}";
                         json := Ok (PyDict [("height", PyInt 800000)]) |};
     latency := fun _ _ => 2%Q;
     sleep_lag := fun _ => 0%Q |}.

(** a answers 200 and declares JSON, but the body is an HTML page; b answers
    200 with the plain text 800000. *)
Definition first_is_garbled : Env :=
  {| http_get := fun _ url =>
       if host_is "https://a.example" url
       then Responded {| status_code := 200;
                         content_type_header := Some "application/json";
                         text := "<html>maintenance</html>";
                         json := Raise (JSONDecodeError "Expecting value") |}
       else plain 200 "800000";
     latency := fun _ _ => 2%Q;
     sleep_lag := fun _ => 0%Q |}.

(** Every upstream is down: a times out, the others answer 503. *)
Definition all_down : Env :=
  {| http_get := fun _ url =>
       if host_is "https://a.example" url then Failed (TransportFailure "timed out")
       else plain 503 "Service Unavailable";
     latency := fun _ _ => 2%Q;
     sleep_lag := fun _ => 0%Q |}.

(** The upstream answers 200 with the JSON number [1e999], which the JSON
    parser reads as the float infinity. *)
Definition answers_infinity : Env :=
  {| http_get := fun _ _ =>
       Responded {| status_code := 200;
                    content_type_header := Some "application/json";
                    text := "1e999";
                    json := Ok (PyFloat (S754_infinity false)) |};
     latency := fun _ _ => 2%Q;
     sleep_lag := fun _ => 0%Q |}.

(** The path function of [get_transaction] applied to a transaction id. *)
Definition tx_fetch (cfg : Config) (env : Env)
  : list string -> list (string * string) -> M string pyval :=
  closure1 "t" (fun t => _fetch_from_upstreams cfg env ("/tx/" +:+ t)).

(** Every upstream answers 503. *)
Definition all_rejecting : Env :=
  {| http_get := fun _ _ => plain 503 "Service Unavailable";
     latency := fun _ _ => 2%Q;
     sleep_lag := fun _ => 0%Q |}.

(** Caching switched off. *)
Definition no_caching : Config :=
  {| UPSTREAMS := ["https://a.example/api"; "https://b.example/api"];
     CACHE_TTL := 0;
     RATE_LIMIT_RPS := 5 |}.

(** The transaction was cached at this very instant. *)
Definition just_cached : World string :=
  {| clock := 1000; _last_request_time := 0;
     _cache := {[ _cache_key "tx" ["ab"] [] := (PyStr "cached", 1000%Q) ]};
     requests := []; warnings := []; sleeps := [] |}.

(** Two calls at the gate, the first of which has taken the lock and found
    that it need not wait. *)
Definition first_inside : RateGate.state :=
  {| RateGate.time := 1000; RateGate.last_call := 0;
     RateGate.holder := Some 0%nat;
     RateGate.calls := [RateGate.Waking; RateGate.Start] |}.

End Scenario.

(** * Properties *)

(** ** Sanity checks of the built-ins *)

Example int_of_decimal_text : py_int (PyStr "800000") = Ok 800000.
Proof. reflexivity. Qed.

Example int_of_padded_text : py_int (PyStr "  -8_000 ") = Ok (-8000).
Proof. reflexivity. Qed.

Example int_of_error_page : py_int (PyStr "<html>Bad Gateway</html>") = Raise ValueError.
Proof. reflexivity. Qed.

Example int_of_list : py_int (PyList [PyInt 1]) = Raise TypeError.
Proof. reflexivity. Qed.

Example int_of_half : py_int (PyFloat (S754_finite false 5 (-1))) = Ok 2.
Proof. reflexivity. Qed.

Example json_content_type_with_charset :
  str_contains "application/json" "application/json; charset=utf-8" = true.
Proof. reflexivity. Qed.

Example plain_content_type :
  str_contains "application/json" "text/plain" = false.
Proof. reflexivity. Qed.

(** ** The fail-over fetch *)

Ltac unfold_M :=
  unfold mbind, mret, M_bind, M_ret, raise, try_except, lift in *.

Section FetchFacts.

Context {Arg : Type} `{Countable Arg}.
Variable cfg : Config.
Variable env : Env.

Implicit Type w : World Arg.

(** The rate limiter always returns, and touches neither the cache nor the
    record of requests and warnings. *)
Lemma rate_limit_returns w :
  (_rate_limit cfg env w).1 = Ok tt.
Proof.
  unfold _rate_limit.
  destruct (Qle_bool (RATE_LIMIT_RPS cfg) 0); [reflexivity|].
  unfold_M. cbn. destruct (Qlt_bool _ _); reflexivity.
Qed.

Lemma rate_limit_frame w :
  let w' := (_rate_limit cfg env w).2 in
  requests w' = requests w /\ warnings w' = warnings w /\ _cache w' = _cache w.
Proof.
  unfold _rate_limit.
  destruct (Qle_bool (RATE_LIMIT_RPS cfg) 0); [cbn; auto|].
  unfold_M. cbn. destruct (Qlt_bool _ _); cbn; auto.
Qed.

(** One attempt sends exactly one GET, to [url]; what it yields is decided
    by the answer to that GET alone; it never raises. *)
Lemma attempt_spec url w :
  let o := http_get env (length (requests w)) url in
  let w' := (attempt cfg env url w).2 in
  (attempt cfg env url w).1 = Ok (accepted o) /\
  requests w' = requests w ++ [url] /\
  _cache w' = _cache w /\
  warnings w' =
    warnings w ++
    match o with
    | Failed e => [(url, e)]
    | Responded resp =>
        if status_code resp =? 200
        then match read_payload resp with
             | Ok _ => []
             | Raise e => [(url, e)]
             end
        else []
    end.
Proof.
  pose proof (rate_limit_returns w) as Hret.
  pose proof (rate_limit_frame w) as (Hreq & Hwarn & Hcache).
  unfold attempt. unfold_M.
  destruct (_rate_limit cfg env w) as [r w1]. cbn in Hret, Hreq, Hwarn, Hcache.
  subst r. unfold client_get. rewrite Hreq.
  destruct (http_get env (length (requests w)) url) as [e|resp]; cbn.
  - rewrite Hwarn, Hcache. auto.
  - destruct (status_code resp =? 200); cbn.
    + destruct (read_payload resp); cbn; rewrite Hwarn, Hcache, ?app_nil_r; auto.
    + rewrite Hwarn, Hcache, app_nil_r. auto.
Qed.

Lemma fetch_loop_next path base rest w :
  accepted (http_get env (length (requests w)) (base +:+ path)) = None ->
  fetch_loop cfg env path (base :: rest) w =
  fetch_loop cfg env path rest (attempt cfg env (base +:+ path) w).2.
Proof.
  intros Hnone. pose proof (attempt_spec (base +:+ path) w) as (Hres & _).
  cbn [fetch_loop]. unfold_M.
  destruct (attempt cfg env (base +:+ path) w) as [r w']. cbn in *.
  rewrite Hres, Hnone. reflexivity.
Qed.

Lemma fetch_loop_return path base rest w v :
  accepted (http_get env (length (requests w)) (base +:+ path)) = Some v ->
  fetch_loop cfg env path (base :: rest) w =
  (Ok v, (attempt cfg env (base +:+ path) w).2).
Proof.
  intros Hsome. pose proof (attempt_spec (base +:+ path) w) as (Hres & _).
  cbn [fetch_loop]. unfold_M.
  destruct (attempt cfg env (base +:+ path) w) as [r w']. cbn in *.
  rewrite Hres, Hsome. reflexivity.
Qed.

(** If the bases [pre] contribute nothing and [b] contributes [v], the loop
    returns [v] after requesting [pre] and [b], in this order, and nothing
    else. *)
Lemma fetch_loop_first_accepted path pre b post : forall w v,
  (forall j bj, pre !! j = Some bj ->
     accepted (http_get env (length (requests w) + j)%nat (bj +:+ path)) = None) ->
  accepted (http_get env (length (requests w) + length pre)%nat (b +:+ path)) = Some v ->
  let r := fetch_loop cfg env path (pre ++ b :: post) w in
  r.1 = Ok v /\
  requests r.2 = requests w ++ urls path (pre ++ [b]) /\
  _cache r.2 = _cache w.
Proof.
  induction pre as [|a pre IH]; intros w v Hpre Hb; cbn [app length] in *.
  - rewrite Nat.add_0_r in Hb. rewrite (fetch_loop_return _ _ _ _ _ Hb).
    pose proof (attempt_spec (b +:+ path) w) as (_ & Hreq & Hc & _).
    cbn. auto.
  - pose proof (Hpre 0%nat a eq_refl) as Ha. rewrite Nat.add_0_r in Ha.
    rewrite (fetch_loop_next _ _ _ _ Ha).
    pose proof (attempt_spec (a +:+ path) w) as (_ & Hreq & Hc & _).
    set (w1 := (attempt cfg env (a +:+ path) w).2) in *.
    assert (Hlen : length (requests w1) = S (length (requests w))).
    { rewrite Hreq, length_app. cbn. lia. }
    destruct (IH w1 v) as (Hr & Hq & Hk).
    + intros j bj Hj. rewrite Hlen.
      replace (S (length (requests w)) + j)%nat
        with (length (requests w) + S j)%nat by lia.
      apply Hpre. exact Hj.
    + rewrite Hlen.
      replace (S (length (requests w)) + length pre)%nat
        with (length (requests w) + S (length pre))%nat by lia.
      exact Hb.
    + cbn zeta. rewrite Hr, Hq, Hk, Hreq, Hc. cbn.
      rewrite <- app_assoc. auto.
Qed.

(** If no base contributes anything, the loop requests all of them in
    order and raises the 502. *)
Lemma fetch_loop_exhausted path bases : forall w,
  (forall j bj, bases !! j = Some bj ->
     accepted (http_get env (length (requests w) + j)%nat (bj +:+ path)) = None) ->
  let r := fetch_loop cfg env path bases w in
  r.1 = Raise (HTTPException 502 "All upstreams failed") /\
  requests r.2 = requests w ++ urls path bases /\
  _cache r.2 = _cache w.
Proof.
  induction bases as [|a bases IH]; intros w Hall.
  - cbn. rewrite app_nil_r. auto.
  - pose proof (Hall 0%nat a eq_refl) as Ha. rewrite Nat.add_0_r in Ha.
    rewrite (fetch_loop_next _ _ _ _ Ha).
    pose proof (attempt_spec (a +:+ path) w) as (_ & Hreq & Hc & _).
    set (w1 := (attempt cfg env (a +:+ path) w).2) in *.
    assert (Hlen : length (requests w1) = S (length (requests w))).
    { rewrite Hreq, length_app. cbn. lia. }
    destruct (IH w1) as (Hr & Hq & Hk).
    + intros j bj Hj. rewrite Hlen.
      replace (S (length (requests w)) + j)%nat
        with (length (requests w) + S j)%nat by lia.
      apply Hall. exact Hj.
    + cbn zeta. rewrite Hr, Hq, Hk, Hreq, Hc. cbn.
      rewrite <- app_assoc. auto.
Qed.

(** Whatever the upstreams answer, the loop ends in one of two ways: with
    the payload read from the answer of one single base, or with the 502.
    The cache is not written either way. *)
Lemma fetch_loop_outcome path bases : forall w,
  let r := fetch_loop cfg env path bases w in
  (r.1 = Raise (HTTPException 502 "All upstreams failed") \/
   exists k b v,
     bases !! k = Some b /\
     accepted (http_get env (length (requests w) + k)%nat (b +:+ path)) = Some v /\
     r.1 = Ok v) /\
  _cache r.2 = _cache w.
Proof.
  induction bases as [|a bases IH]; intros w.
  - cbn. auto.
  - pose proof (attempt_spec (a +:+ path) w) as (_ & Hreq & Hc & _).
    destruct (accepted (http_get env (length (requests w)) (a +:+ path)))
      as [v|] eqn:Ha.
    + rewrite (fetch_loop_return _ _ _ _ _ Ha). cbn. split; [|exact Hc].
      right. exists 0%nat, a, v. rewrite Nat.add_0_r. auto.
    + rewrite (fetch_loop_next _ _ _ _ Ha).
      set (w1 := (attempt cfg env (a +:+ path) w).2) in *.
      assert (Hlen : length (requests w1) = S (length (requests w))).
      { rewrite Hreq, length_app. cbn. lia. }
      destruct (IH w1) as ([Hr | (k & b & v & Hk & Hv & Hr)] & Hcache).
      * cbn zeta. rewrite Hcache, Hc. auto.
      * cbn zeta. rewrite Hcache, Hc. split; [|reflexivity].
        right. exists (S k), b, v. rewrite Hlen in Hv.
        replace (length (requests w) + S k)%nat
          with (S (length (requests w)) + k)%nat by lia.
        auto.
Qed.

Lemma failed_or_rejected_not_accepted o :
  failed_or_rejected o -> accepted o = None.
Proof.
  destruct o as [e|resp]; cbn; [reflexivity|].
  intros Hne. destruct (Z.eqb_spec (status_code resp) 200); [contradiction|reflexivity].
Qed.

Lemma accepted_readable resp v :
  status_code resp = 200 -> read_payload resp = Ok v ->
  accepted (Responded resp) = Some v.
Proof. intros Hs Hp. cbn. rewrite Hs, Hp. reflexivity. Qed.

(** C1 (as amended). For every upstream list and path, the fetch requests
    the base URLs in list order and returns the payload of the first
    upstream that answers 200 with a payload that can be read: the parsed
    JSON if the declared content type contains application/json and the
    body parses, the raw text unchanged if the content type does not
    declare JSON.  Upstreams before it that failed, answered another status
    or answered 200 with a JSON body that does not parse are passed over;
    no upstream after it is contacted. *)
Theorem fetch_returns_first_readable_200 path pre b post w resp v :
  UPSTREAMS cfg = pre ++ b :: post ->
  (forall j bj, pre !! j = Some bj ->
     accepted (http_get env (length (requests w) + j)%nat (bj +:+ path)) = None) ->
  http_get env (length (requests w) + length pre)%nat (b +:+ path) = Responded resp ->
  status_code resp = 200 ->
  read_payload resp = Ok v ->
  let declared_json :=
    str_contains "application/json" (default EmptyString (content_type_header resp)) in
  let r := _fetch_from_upstreams cfg env path w in
  r.1 = Ok v /\
  (declared_json = true -> json resp = Ok v) /\
  (declared_json = false -> v = PyStr (text resp)) /\
  requests r.2 = requests w ++ urls path (pre ++ [b]).
Proof.
  intros Hups Hpre Hget Hstatus Hpay declared_json r.
  assert (Hacc : accepted (http_get env (length (requests w) + length pre)%nat
                             (b +:+ path)) = Some v).
  { rewrite Hget. apply accepted_readable; assumption. }
  destruct (fetch_loop_first_accepted path pre b post w v Hpre Hacc)
    as (Hr & Hq & _).
  subst r. unfold _fetch_from_upstreams. rewrite Hups.
  split; [exact Hr|]. split; [|split; [|exact Hq]].
  - intros Hj. unfold read_payload in Hpay. fold declared_json in Hpay.
    rewrite Hj in Hpay. exact Hpay.
  - intros Hj. unfold read_payload in Hpay. fold declared_json in Hpay.
    rewrite Hj in Hpay. congruence.
Qed.

(** C2. If every configured upstream fails or answers with a status other
    than 200, the fetch raises the one exhausted-upstreams error, an
    HTTPException with status 502, after trying them all; with an empty
    list it raises it at once, nothing having been sent or waited for; and
    whatever the upstreams do, the fetch either raises that error or
    returns what it read from the answer of one single upstream. *)
Theorem fetch_exhausted_raises_502 path w :
  ((forall j base, UPSTREAMS cfg !! j = Some base ->
      failed_or_rejected
        (http_get env (length (requests w) + j)%nat (base +:+ path))) ->
   let r := _fetch_from_upstreams cfg env path w in
   r.1 = Raise (HTTPException 502 "All upstreams failed") /\
   requests r.2 = requests w ++ urls path (UPSTREAMS cfg)) /\
  (UPSTREAMS cfg = [] ->
   _fetch_from_upstreams cfg env path w =
   (Raise (HTTPException 502 "All upstreams failed"), w)) /\
  (let r := _fetch_from_upstreams cfg env path w in
   r.1 = Raise (HTTPException 502 "All upstreams failed") \/
   exists k base v,
     UPSTREAMS cfg !! k = Some base /\
     accepted (http_get env (length (requests w) + k)%nat (base +:+ path)) = Some v /\
     r.1 = Ok v).
Proof.
  unfold _fetch_from_upstreams. split; [|split].
  - intros Hall.
    destruct (fetch_loop_exhausted path (UPSTREAMS cfg) w) as (Hr & Hq & _); auto.
    intros j base Hj. apply failed_or_rejected_not_accepted, Hall, Hj.
  - intros ->. reflexivity.
  - apply (fetch_loop_outcome path (UPSTREAMS cfg) w).
Qed.

(** C10. An upstream that answers 200 and declares JSON but whose body does
    not parse is treated as failed: the exception of the parse is caught, a
    warning naming the URL and the exception is logged, and the loop goes on
    with the next upstream exactly as it would from that point; the parse
    error does not reach the caller. *)
Theorem unparsable_json_fails_over path base rest w resp e :
  http_get env (length (requests w)) (base +:+ path) = Responded resp ->
  status_code resp = 200 ->
  str_contains "application/json" (default EmptyString (content_type_header resp)) = true ->
  json resp = Raise e ->
  let w' := (attempt cfg env (base +:+ path) w).2 in
  fetch_loop cfg env path (base :: rest) w = fetch_loop cfg env path rest w' /\
  (attempt cfg env (base +:+ path) w).1 = Ok None /\
  requests w' = requests w ++ [base +:+ path] /\
  warnings w' = warnings w ++ [(base +:+ path, e)] /\
  _cache w' = _cache w /\
  ((fetch_loop cfg env path (base :: rest) w).1 =
     Raise (HTTPException 502 "All upstreams failed") \/
   exists v, (fetch_loop cfg env path (base :: rest) w).1 = Ok v).
Proof.
  intros Hget Hstatus Hct Hjson w'.
  assert (Hpay : read_payload resp = Raise e).
  { unfold read_payload. rewrite Hct. exact Hjson. }
  assert (Hacc : accepted (http_get env (length (requests w)) (base +:+ path)) = None).
  { rewrite Hget. cbn. rewrite Hstatus, Hpay. reflexivity. }
  pose proof (attempt_spec (base +:+ path) w) as (Hres & Hreq & Hc & Hwarn).
  rewrite Hget in Hwarn. rewrite Hstatus, Hpay in Hwarn. cbn in Hwarn.
  rewrite Hacc in Hres.
  split; [apply fetch_loop_next; exact Hacc|].
  do 4 (split; [assumption|]).
  destruct (fetch_loop_outcome path (base :: rest) w)
    as ([Hr | (k & b & v & _ & _ & Hr)] & _); eauto.
Qed.

End FetchFacts.

(** ** The cache *)

Lemma Qlt_bool_true x y : Qlt_bool x y = true <-> (x < y)%Q.
Proof.
  unfold Qlt_bool. rewrite negb_true_iff.
  destruct (Qle_bool y x) eqn:E.
  - apply Qle_bool_iff in E. split; [discriminate|]. intros Hlt.
    exfalso. exact (Qlt_not_le _ _ Hlt E).
  - split; [|reflexivity]. intros _. apply Qnot_le_lt. intros Hle.
    apply Qle_bool_iff in Hle. congruence.
Qed.

Lemma Qlt_bool_false x y : Qlt_bool x y = false <-> (y <= x)%Q.
Proof.
  unfold Qlt_bool. rewrite negb_false_iff. apply Qle_bool_iff.
Qed.

Section CacheFacts.

Context {Arg : Type} `{Countable Arg}.
Variable cfg : Config.
Variable env : Env.

Implicit Type w : World Arg.
Implicit Type c : gmap (@Key Arg) (pyval * Q).
Implicit Type key : @Key Arg.

Lemma cache_lookup_fresh c key v ts now :
  c !! key = Some (v, ts) ->
  (now - ts < inject_Z (CACHE_TTL cfg))%Q ->
  cache_lookup cfg c key now = Some v.
Proof.
  intros Hc Hlt. unfold cache_lookup. rewrite Hc.
  apply Qlt_bool_true in Hlt. rewrite Hlt. reflexivity.
Qed.

Lemma cache_lookup_stale c key v ts now :
  c !! key = Some (v, ts) ->
  (inject_Z (CACHE_TTL cfg) <= now - ts)%Q ->
  cache_lookup cfg c key now = None.
Proof.
  intros Hc Hle. unfold cache_lookup. rewrite Hc.
  apply Qlt_bool_false in Hle. rewrite Hle. reflexivity.
Qed.

Lemma cache_lookup_absent c key now :
  c !! key = None -> cache_lookup cfg c key now = None.
Proof. intros Hc. unfold cache_lookup. rewrite Hc. reflexivity. Qed.

(** A lookup that finds a recent entry says which entry it found. *)
Lemma cache_lookup_Some c key now v :
  cache_lookup cfg c key now = Some v ->
  exists ts, c !! key = Some (v, ts) /\ (now - ts < inject_Z (CACHE_TTL cfg))%Q.
Proof.
  unfold cache_lookup. destruct (c !! key) as [[r ts]|]; [|discriminate].
  destruct (Qlt_bool _ _) eqn:E; [|discriminate].
  intros [= ->]. exists ts. split; [reflexivity|]. apply Qlt_bool_true, E.
Qed.

(** On a hit the resolution returns the cached value and is over: the world
    is as before, and the path function plays no part. *)
Lemma get_cached_or_fetch_hit name path_func args kwargs w v :
  cache_lookup cfg (_cache w) (_cache_key name args kwargs) (clock w) = Some v ->
  _get_cached_or_fetch cfg name path_func args kwargs w = (Ok v, w).
Proof.
  intros Hhit. unfold _get_cached_or_fetch, time_time, get_cache. unfold_M.
  rewrite Hhit. reflexivity.
Qed.

(** On a miss the path function runs once, from the world as it is; its
    failure is passed on as it is, its result is stored under the key with
    the time read before the lookup. *)
Lemma get_cached_or_fetch_miss name path_func args kwargs w :
  cache_lookup cfg (_cache w) (_cache_key name args kwargs) (clock w) = None ->
  _get_cached_or_fetch cfg name path_func args kwargs w =
  match path_func args kwargs w with
  | (Ok result, w1) =>
      (Ok result,
       (set_cache
          (cache_store (_cache w1) (_cache_key name args kwargs) result (clock w))
          w1).2)
  | (Raise e, w1) => (Raise e, w1)
  end.
Proof.
  intros Hmiss. unfold _get_cached_or_fetch, time_time, get_cache. unfold_M.
  rewrite Hmiss. destruct (path_func args kwargs w) as [[result|e] w1]; reflexivity.
Qed.

(** C3. The engine's store and lookup.  A resolution that starts at time
    [t0], misses and gets [v] from its path function stores [v] under the
    signature with the stamp [t0] (this is [store(s, v, t0)]).  Once that
    entry is in the cache, a resolution of the signature at time [t] with
    [t - t0 < TTL] finds [v]: it returns [v] and leaves the world alone,
    whatever its path function.  At a time [t] with [t - t0 >= TTL] the
    lookup finds nothing, exactly as if the entry had been deleted: the
    resolution runs its path function as on a miss, from the world as it
    is, in which the stale entry is still present. *)
Theorem lookup_after_store name args kwargs v t0 :
  let key := _cache_key name args kwargs in
  (forall path_func w w1,
     clock w = t0 ->
     cache_lookup cfg (_cache w) key t0 = None ->
     path_func args kwargs w = (Ok v, w1) ->
     let r := _get_cached_or_fetch cfg name path_func args kwargs w in
     r.1 = Ok v /\
     _cache r.2 = cache_store (_cache w1) key v t0) /\
  (forall c path_func w,
     _cache w = cache_store c key v t0 ->
     ((clock w - t0 < inject_Z (CACHE_TTL cfg))%Q ->
      cache_lookup cfg (_cache w) key (clock w) = Some v /\
      _get_cached_or_fetch cfg name path_func args kwargs w = (Ok v, w)) /\
     ((inject_Z (CACHE_TTL cfg) <= clock w - t0)%Q ->
      cache_lookup cfg (_cache w) key (clock w) = None /\
      cache_lookup cfg (_cache w) key (clock w) =
        cache_lookup cfg (delete key (_cache w)) key (clock w) /\
      _cache w !! key = Some (v, t0) /\
      _get_cached_or_fetch cfg name path_func args kwargs w =
      match path_func args kwargs w with
      | (Ok result, w1) =>
          (Ok result,
           (set_cache (cache_store (_cache w1) key result (clock w)) w1).2)
      | (Raise e, w1) => (Raise e, w1)
      end)).
Proof.
  intros key. split.
  - intros path_func w w1 Ht Hmiss Hpf r. subst r t0.
    rewrite (get_cached_or_fetch_miss _ _ _ _ _ Hmiss), Hpf. cbn. auto.
  - intros c path_func w Hc.
    assert (Hin : _cache w !! key = Some (v, t0)).
    { rewrite Hc. unfold cache_store. apply lookup_insert_eq. }
    split.
    + intros Hlt.
      pose proof (cache_lookup_fresh _ _ _ _ _ Hin Hlt) as Hhit.
      split; [exact Hhit|]. apply get_cached_or_fetch_hit. exact Hhit.
    + intros Hle.
      pose proof (cache_lookup_stale _ _ _ _ _ Hin Hle) as Hstale.
      split; [exact Hstale|]. split; [|split; [exact Hin|]].
      * rewrite Hstale. symmetry. apply cache_lookup_absent, lookup_delete_eq.
      * apply get_cached_or_fetch_miss. exact Hstale.
Qed.

(** C4. A resolution whose fetch ends in the exhausted-upstreams failure
    raises that failure and leaves the cache exactly as it was: nothing is
    written for the signature and an earlier entry stays as it is. *)
Theorem failed_resolution_leaves_cache name path_func args kwargs path w e w' :
  path_func args kwargs = _fetch_from_upstreams cfg env path ->
  _get_cached_or_fetch cfg name path_func args kwargs w = (Raise e, w') ->
  e = HTTPException 502 "All upstreams failed" /\
  _cache w' = _cache w.
Proof.
  intros Hpf Hres.
  destruct (cache_lookup cfg (_cache w) (_cache_key name args kwargs) (clock w))
    as [v|] eqn:Hlook.
  - rewrite (get_cached_or_fetch_hit _ _ _ _ _ _ Hlook) in Hres. discriminate.
  - rewrite (get_cached_or_fetch_miss _ _ _ _ _ Hlook), Hpf in Hres.
    unfold _fetch_from_upstreams in Hres.
    destruct (fetch_loop_outcome cfg env path (UPSTREAMS cfg) w)
      as ([Hr | (k & b & v & _ & _ & Hr)] & Hcache);
      destruct (fetch_loop cfg env path (UPSTREAMS cfg) w) as [[r|e0] w1];
      cbn in Hr, Hcache; try discriminate.
    + injection Hres as <- <-. injection Hr as ->. auto.
Qed.

(** C5. While a fresh entry exists for the signature, the resolution
    returns the cached value and changes nothing in the world: no request
    is sent, no sleep is made, the rate limiter's time stamp is not
    touched, whatever the path function is.  In particular, when a
    resolution misses and its path function returns [v], that path function
    has run once, and a second resolution of the same signature that
    starts less than TTL after the first started returns [v] again and
    changes nothing. *)
Theorem fresh_entry_short_circuits name args kwargs :
  let key := _cache_key name args kwargs in
  (forall path_func w v ts,
     _cache w !! key = Some (v, ts) ->
     (clock w - ts < inject_Z (CACHE_TTL cfg))%Q ->
     _get_cached_or_fetch cfg name path_func args kwargs w = (Ok v, w)) /\
  (forall path_func w v w1,
     cache_lookup cfg (_cache w) key (clock w) = None ->
     path_func args kwargs w = (Ok v, w1) ->
     let r1 := _get_cached_or_fetch cfg name path_func args kwargs w in
     r1.1 = Ok v /\
     requests r1.2 = requests w1 /\
     sleeps r1.2 = sleeps w1 /\
     _last_request_time r1.2 = _last_request_time w1 /\
     forall path_func' w2,
       _cache w2 !! key = _cache r1.2 !! key ->
       (clock w2 - clock w < inject_Z (CACHE_TTL cfg))%Q ->
       _get_cached_or_fetch cfg name path_func' args kwargs w2 = (Ok v, w2)).
Proof.
  intros key. split.
  - intros path_func w v ts Hc Hlt. apply get_cached_or_fetch_hit.
    exact (cache_lookup_fresh _ _ _ _ _ Hc Hlt).
  - intros path_func w v w1 Hmiss Hpf r1. subst r1.
    rewrite (get_cached_or_fetch_miss _ _ _ _ _ Hmiss), Hpf. cbn.
    do 4 (split; [reflexivity|]).
    intros path_func' w2 Hsame Hlt. apply get_cached_or_fetch_hit.
    apply (cache_lookup_fresh _ _ _ (clock w)); [|exact Hlt].
    fold key. rewrite Hsame. unfold cache_store. apply lookup_insert_eq.
Qed.

(** C6 (as amended). On a miss or a stale hit whose fetch succeeds, the
    engine stores the fetched result paired with the time it read when the
    resolution began, before the lookup and before the fetch: the entry's
    time stamp is the time at which the resolution started. *)
Theorem stored_timestamp_is_resolution_start name path_func args kwargs w v w1 :
  let key := _cache_key name args kwargs in
  cache_lookup cfg (_cache w) key (clock w) = None ->
  path_func args kwargs w = (Ok v, w1) ->
  let r := _get_cached_or_fetch cfg name path_func args kwargs w in
  r.1 = Ok v /\
  _cache r.2 = <[key := (v, clock w)]> (_cache w1) /\
  _cache r.2 !! key = Some (v, clock w) /\
  clock r.2 = clock w1.
Proof.
  intros key Hmiss Hpf r. subst r.
  rewrite (get_cached_or_fetch_miss _ _ _ _ _ Hmiss), Hpf. cbn.
  split; [reflexivity|]. split; [reflexivity|]. split; [|reflexivity].
  unfold cache_store. apply lookup_insert_eq.
Qed.

(** *** The request signature *)

Lemma insert_item_Permutation (x : string * Arg) l : insert_item x l ≡ₚ x :: l.
Proof.
  induction l as [|y l IH]; cbn; [reflexivity|].
  destruct (String.leb x.1 y.1); [reflexivity|].
  rewrite IH. apply Permutation_swap.
Qed.

Lemma sorted_items_Permutation (kwargs : list (string * Arg)) :
  sorted_items kwargs ≡ₚ kwargs.
Proof.
  induction kwargs as [|x l IH]; cbn; [reflexivity|].
  rewrite insert_item_Permutation. fold (sorted_items l). rewrite IH. reflexivity.
Qed.

Lemma item_le_total (x y : string * Arg) : item_le x y \/ item_le y x.
Proof. unfold item_le. destruct (String.le_total x.1 y.1); auto. Qed.

#[local] Instance item_le_trans : Transitive (@item_le Arg).
Proof. intros x y z. unfold item_le. apply transitivity. Qed.

Lemma insert_item_Sorted (x : string * Arg) l :
  Sorted item_le l -> Sorted item_le (insert_item x l).
Proof.
  induction l as [|y l IH]; cbn; intros Hs.
  - repeat constructor.
  - destruct (String.leb x.1 y.1) eqn:E.
    + constructor; [exact Hs|]. constructor. unfold item_le, String.le.
      rewrite E. exact I.
    + assert (Hyx : item_le y x).
      { destruct (item_le_total x y) as [Hxy|Hyx]; [|exact Hyx].
        unfold item_le, String.le in Hxy. rewrite E in Hxy. destruct Hxy. }
      inversion Hs as [|? ? Hl Hhd]; subst.
      constructor; [apply IH; exact Hl|].
      destruct l as [|z l]; cbn.
      * constructor. exact Hyx.
      * destruct (String.leb x.1 z.1); constructor; [exact Hyx|].
        inversion Hhd; subst. assumption.
Qed.

Lemma sorted_items_Sorted (kwargs : list (string * Arg)) :
  Sorted item_le (sorted_items kwargs).
Proof.
  induction kwargs as [|x l IH]; cbn; [constructor|].
  apply insert_item_Sorted. exact IH.
Qed.

(** The signature does not depend on the order in which the named
    arguments were given. *)
Lemma cache_key_order_independent name args (kwargs1 kwargs2 : list (string * Arg)) :
  NoDup kwargs1.*1 -> kwargs1 ≡ₚ kwargs2 ->
  _cache_key name args kwargs1 = _cache_key name args kwargs2.
Proof.
  intros Hnd Hperm. unfold _cache_key. f_equal.
  apply (Sorted_unique_strong item_le); try apply sorted_items_Sorted.
  - intros x1 x2 Hx1 Hx2 H12 H21.
    rewrite sorted_items_Permutation in Hx1.
    rewrite sorted_items_Permutation, <- Hperm in Hx2.
    assert (Hk : x1.1 = x2.1).
    { unfold item_le in *. apply (anti_symm String.le); assumption. }
    destruct x1 as [k1 v1], x2 as [k2 v2]; cbn in Hk; subst k2.
    f_equal. clear -Hnd Hx1 Hx2.
    induction kwargs1 as [|[k v] l IH]; [inversion Hx1|].
    cbn in Hnd. apply NoDup_cons in Hnd as [Hk Hnd].
    apply elem_of_cons in Hx1 as [Heq1|Hx1], Hx2 as [Heq2|Hx2].
    + congruence.
    + injection Heq1 as -> ->. exfalso. apply Hk.
      apply list_elem_of_fmap. exists (k, v2). auto.
    + injection Heq2 as -> ->. exfalso. apply Hk.
      apply list_elem_of_fmap. exists (k, v1). auto.
    + auto.
  - rewrite !sorted_items_Permutation. exact Hperm.
Qed.

(** C9. Two signatures are equal exactly when their operation names, their
    positional arguments and their named arguments put in order of key are
    equal (the normal form being the named arguments sorted by key); and
    storing under one signature does not change what a lookup of a
    different signature returns. *)
Theorem signature_equality_and_isolation :
  (forall name1 args1 (kwargs1 : list (string * Arg)) name2 args2 kwargs2,
     _cache_key name1 args1 kwargs1 = _cache_key name2 args2 kwargs2 <->
     name1 = name2 /\ args1 = args2 /\ sorted_items kwargs1 = sorted_items kwargs2) /\
  (forall kwargs : list (string * Arg),
     Sorted item_le (sorted_items kwargs) /\ sorted_items kwargs ≡ₚ kwargs) /\
  (forall c key1 key2 v t now,
     key1 <> key2 ->
     cache_lookup cfg (cache_store c key1 v t) key2 now = cache_lookup cfg c key2 now).
Proof.
  split; [|split].
  - intros name1 args1 kwargs1 name2 args2 kwargs2. unfold _cache_key. split.
    + intros [= -> -> ->]. auto.
    + intros (-> & -> & ->). reflexivity.
  - intros kwargs. split; [apply sorted_items_Sorted|apply sorted_items_Permutation].
  - intros c key1 key2 v t now Hne. unfold cache_lookup, cache_store.
    rewrite lookup_insert_ne by exact Hne. reflexivity.
Qed.

End CacheFacts.

(** ** The rate gate *)

Section GateFacts.

Import RateGate.

Variable cfg : Config.

(** The call of [_rate_limit] made by a coroutine on its own is one of the
    schedules: acquire, compute, sleep if there is a wait, update. *)
Lemma rate_limit_is_a_schedule {Arg : Type} `{Countable Arg} env (w : World Arg) :
  (0 < RATE_LIMIT_RPS cfg)%Q ->
  (0 <= sleep_lag env (length (sleeps w)))%Q ->
  let w' := (_rate_limit cfg env w).2 in
  exists schedule,
    run cfg schedule
      {| time := clock w; last_call := _last_request_time w;
         holder := None; calls := [Start] |} =
    Some {| time := clock w'; last_call := _last_request_time w';
            holder := None; calls := [Done (clock w')] |}.
Proof.
  intros Hpos Hlag.
  assert (HR : Qle_bool (RATE_LIMIT_RPS cfg) 0 = false).
  { destruct (Qle_bool (RATE_LIMIT_RPS cfg) 0) eqn:E; [|reflexivity].
    apply Qle_bool_iff in E. lra. }
  unfold _rate_limit. rewrite HR. unfold_M. cbn.
  set (wait_time := (1 / RATE_LIMIT_RPS cfg - (clock w - _last_request_time w))%Q).
  destruct (Qlt_bool 0 wait_time) eqn:Hwait.
  - exists [Run 0; Run 0;
            Tick (wait_time + sleep_lag env (length (sleeps w))); Run 0; Run 0].
    cbn. rewrite HR. cbn. fold wait_time. rewrite Hwait. cbn.
    apply Qlt_bool_true in Hwait.
    assert (Hd : Qle_bool 0 (wait_time + sleep_lag env (length (sleeps w))) = true).
    { apply Qle_bool_iff. lra. }
    rewrite Hd. cbn.
    assert (Hdue : Qle_bool (clock w + wait_time)
                     (clock w + (wait_time + sleep_lag env (length (sleeps w))))
                   = true).
    { apply Qle_bool_iff. lra. }
    rewrite Hdue. cbn. reflexivity.
  - exists [Run 0; Run 0; Run 0].
    cbn. rewrite HR. cbn. fold wait_time. rewrite Hwait. cbn. reflexivity.
Qed.

End GateFacts.

(** ** The endpoints *)

(** The coercion of the tip height either yields the integer, or falls back
    to the payload as it is, or, for an infinite float, raises. *)
Lemma int_or_raw_cases data :
  match py_int data with
  | Ok n => int_or_raw data = Ok (PyInt n)
  | Raise _ =>
      int_or_raw data = Ok data \/
      (exists s, data = PyFloat (S754_infinity s)) /\
      int_or_raw data = Raise OverflowError
  end.
Proof.
  unfold int_or_raw.
  destruct data as [|b|n|f|s|l|d]; cbn; auto.
  - destruct f as [sg|sg| |sg m e]; cbn; eauto.
  - unfold int_of_str. destruct (match int_rstrip (int_lstrip s) with
      | EmptyString => _ | String _ _ => _ end); auto.
Qed.

Example tip_height_of_decimal_text :
  int_or_raw (PyStr "800000") = Ok (PyInt 800000).
Proof. reflexivity. Qed.

Example tip_height_of_error_page :
  int_or_raw (PyStr "<html>Bad Gateway</html>") = Ok (PyStr "<html>Bad Gateway</html>").
Proof. reflexivity. Qed.

Example tip_height_of_json_object :
  int_or_raw (PyDict [("height"%string, PyInt 800000)]) =
  Ok (PyDict [("height"%string, PyInt 800000)]).
Proof. reflexivity. Qed.

(** C8 (the code departs from the claim). When the upstream answers the
    tip-height request with status 200 and the JSON number 1e999, the
    payload is the float infinity; [int] raises OverflowError on it, which
    the handler for ValueError and TypeError does not catch: the endpoint
    raises instead of returning the payload in its original form. *)
Theorem tip_height_overflow_escapes :
  py_int (PyFloat (S754_infinity false)) = Raise OverflowError /\
  (_fetch_from_upstreams Scenario.two_upstreams Scenario.answers_infinity
     "/blocks/tip/height" Scenario.fresh).1 = Ok (PyFloat (S754_infinity false)) /\
  (get_tip_height Scenario.two_upstreams Scenario.answers_infinity
     Scenario.fresh).1 = Raise OverflowError.
Proof. repeat split; vm_compute; reflexivity. Qed.

(** * Instances *)

Section Instances.

Import Scenario.
Local Open Scope string_scope.
Local Open Scope list_scope.

(** C1, as stated, fails: upstream a answers 200 (declaring JSON that does
    not parse), and still upstream b is contacted after it and it is b's
    text that is returned. *)
Lemma first_200_is_not_final :
  ~ (forall pre b post resp,
       UPSTREAMS two_upstreams = pre ++ b :: post ->
       (forall j bj, pre !! j = Some bj ->
          failed_or_rejected
            (http_get first_is_garbled (length (requests fresh) + j)%nat
               (bj +:+ "/tx/ab"))) ->
       http_get first_is_garbled (length (requests fresh) + length pre)%nat
         (b +:+ "/tx/ab") = Responded resp ->
       status_code resp = 200 ->
       let r := _fetch_from_upstreams two_upstreams first_is_garbled "/tx/ab" fresh in
       r.1 = read_payload resp /\
       requests r.2 = requests fresh ++ urls "/tx/ab" (pre ++ [b])).
Proof.
  intros Hclaim.
  destruct (Hclaim [] "https://a.example/api" ["https://b.example/api"]
              {| status_code := 200;
                 content_type_header := Some "application/json";
                 text := "<html>maintenance</html>";
                 json := Raise (JSONDecodeError "Expecting value") |})
    as [Hpayload Hrequests].
  - reflexivity.
  - intros j bj Hj. destruct j; discriminate Hj.
  - reflexivity.
  - reflexivity.
  - vm_compute in Hrequests. discriminate Hrequests.
Qed.

Lemma fetch_returns_first_readable_200_witness :
  let r := _fetch_from_upstreams three_upstreams third_answers
             "/blocks/tip/height" fresh in
  r.1 = Ok (PyDict [("height", PyInt 800000)]) /\
  requests r.2 = ["https://a.example/api/blocks/tip/height";
                  "https://b.example/api/blocks/tip/height";
                  "https://c.example/api/blocks/tip/height"].
Proof.
  destruct (fetch_returns_first_readable_200 (Arg := string)
              three_upstreams third_answers "/blocks/tip/height"
              ["https://a.example/api"; "https://b.example/api"]
              "https://c.example/api" [] fresh
              {| status_code := 200;
                 content_type_header := Some "application/json";
                 text := "{" +:+ dquote +:+ "height" +:+ dquote +:+ ": 800000}";
                 json := Ok (PyDict [("height", PyInt 800000)]) |}
              (PyDict [("height", PyInt 800000)]))
    as (Hresult & _ & _ & Hrequests).
  - reflexivity.
  - intros [|[|j]] bj Hj; simpl in Hj; try discriminate Hj;
      injection Hj as <-; reflexivity.
  - reflexivity.
  - reflexivity.
  - reflexivity.
  - split; [exact Hresult|exact Hrequests].
Defined.

Lemma fetch_exhausted_raises_502_witness :
  (let r := _fetch_from_upstreams two_upstreams all_down "/tx/ab" fresh in
   r.1 = Raise (HTTPException 502 "All upstreams failed") /\
   requests r.2 = ["https://a.example/api/tx/ab"; "https://b.example/api/tx/ab"]) /\
  _fetch_from_upstreams no_upstreams all_down "/tx/ab" fresh =
  (Raise (HTTPException 502 "All upstreams failed"), fresh).
Proof.
  split.
  - apply (proj1 (fetch_exhausted_raises_502 (Arg := string)
                    two_upstreams all_down "/tx/ab" fresh)).
    intros [|[|j]] base Hj; simpl in Hj; try discriminate Hj;
      injection Hj as <-; simpl; [exact I|discriminate].
  - apply (proj1 (proj2 (fetch_exhausted_raises_502 (Arg := string)
                           no_upstreams all_down "/tx/ab" fresh))).
    reflexivity.
Defined.

Lemma unparsable_json_fails_over_witness :
  let url := "https://a.example/api/tx/ab" in
  let w' := (attempt two_upstreams first_is_garbled url fresh).2 in
  fetch_loop two_upstreams first_is_garbled "/tx/ab"
    ["https://a.example/api"; "https://b.example/api"] fresh =
  fetch_loop two_upstreams first_is_garbled "/tx/ab" ["https://b.example/api"] w' /\
  warnings w' = [(url, JSONDecodeError "Expecting value")].
Proof.
  destruct (unparsable_json_fails_over (Arg := string)
              two_upstreams first_is_garbled "/tx/ab"
              "https://a.example/api" ["https://b.example/api"] fresh
              {| status_code := 200;
                 content_type_header := Some "application/json";
                 text := "<html>maintenance</html>";
                 json := Raise (JSONDecodeError "Expecting value") |}
              (JSONDecodeError "Expecting value"))
    as (Hloop & _ & _ & Hwarn & _).
  - reflexivity.
  - reflexivity.
  - reflexivity.
  - reflexivity.
  - split; [exact Hloop|exact Hwarn].
Defined.

(** The transaction is fetched and stored at time 1000 with a TTL of 30;
    it is found at 1029 and not at 1030. *)
Lemma lookup_after_store_witness :
  let key : @Key string := _cache_key "tx" ["ab"] [] in
  let fetch := tx_fetch two_upstreams first_is_garbled in
  let r := _get_cached_or_fetch two_upstreams "tx" fetch ["ab"] [] fresh in
  let at_time (t : Q) : World string :=
    {| clock := t; _last_request_time := _last_request_time r.2;
       _cache := _cache r.2; requests := requests r.2;
       warnings := warnings r.2; sleeps := sleeps r.2 |} in
  (r.1 = Ok (PyStr "800000") /\
   _cache r.2 =
   cache_store (_cache (fetch ["ab"] [] fresh).2) key (PyStr "800000") 1000) /\
  _get_cached_or_fetch two_upstreams "tx" (tx_fetch two_upstreams all_down)
    ["ab"] [] (at_time 1029%Q) = (Ok (PyStr "800000"), at_time 1029%Q) /\
  cache_lookup two_upstreams (_cache (at_time 1030%Q)) key (clock (at_time 1030%Q))
    = None.
Proof.
  intros key fetch r at_time.
  pose proof (lookup_after_store two_upstreams "tx" ["ab"] [] (PyStr "800000")
                1000) as [Hstore Hlookup].
  assert (Hr : r.1 = Ok (PyStr "800000") /\
               _cache r.2 =
               cache_store (_cache (fetch ["ab"] [] fresh).2) key
                 (PyStr "800000") 1000).
  { apply (Hstore fetch fresh (fetch ["ab"] [] fresh).2).
    - reflexivity.
    - vm_compute. reflexivity.
    - vm_compute. reflexivity. }
  split; [exact Hr|]. split.
  - apply (proj1 (Hlookup (_cache (fetch ["ab"] [] fresh).2)
                    (tx_fetch two_upstreams all_down) (at_time 1029%Q)
                    (proj2 Hr))).
    reflexivity.
  - apply (proj2 (Hlookup (_cache (fetch ["ab"] [] fresh).2)
                    (tx_fetch two_upstreams all_down) (at_time 1030%Q)
                    (proj2 Hr))).
    discriminate.
Defined.

Lemma failed_resolution_leaves_cache_witness :
  let r := _get_cached_or_fetch two_upstreams "tx"
             (tx_fetch two_upstreams all_down) ["ab"] [] fresh in
  r.1 = Raise (HTTPException 502 "All upstreams failed") /\
  _cache r.2 = _cache fresh.
Proof.
  intros r.
  destruct (failed_resolution_leaves_cache two_upstreams all_down "tx"
              (tx_fetch two_upstreams all_down) ["ab"] [] "/tx/ab" fresh
              (HTTPException 502 "All upstreams failed") r.2)
    as [_ Hcache].
  - reflexivity.
  - vm_compute. reflexivity.
  - split; [vm_compute; reflexivity|exact Hcache].
Defined.

(** A world in which the transaction was cached ten seconds ago. *)
Lemma fresh_entry_short_circuits_witness :
  let key : @Key string := _cache_key "tx" ["ab"] [] in
  let warm : World string :=
    {| clock := 1000; _last_request_time := 990;
       _cache := {[ key := (PyStr "cached", 990%Q) ]};
       requests := []; warnings := []; sleeps := [] |} in
  _get_cached_or_fetch two_upstreams "tx" (tx_fetch two_upstreams all_down)
    ["ab"] [] warm = (Ok (PyStr "cached"), warm) /\
  let r1 := _get_cached_or_fetch two_upstreams "tx"
              (tx_fetch two_upstreams first_is_garbled) ["ab"] [] fresh in
  let later : World string :=
    {| clock := 1029; _last_request_time := _last_request_time r1.2;
       _cache := _cache r1.2;
       requests := requests r1.2; warnings := warnings r1.2;
       sleeps := sleeps r1.2 |} in
  r1.1 = Ok (PyStr "800000") /\
  _get_cached_or_fetch two_upstreams "tx" (tx_fetch two_upstreams first_is_garbled)
    ["ab"] [] later = (Ok (PyStr "800000"), later).
Proof.
  intros key warm. split.
  - apply (proj1 (fresh_entry_short_circuits two_upstreams "tx" ["ab"] [])
             (tx_fetch two_upstreams all_down) warm (PyStr "cached") 990%Q).
    + vm_compute. reflexivity.
    + reflexivity.
  - intros r1 later.
    destruct (proj2 (fresh_entry_short_circuits two_upstreams "tx" ["ab"] [])
                (tx_fetch two_upstreams first_is_garbled) fresh (PyStr "800000")
                (tx_fetch two_upstreams first_is_garbled ["ab"] [] fresh).2)
      as (Hfirst & _ & _ & _ & Hsecond).
    + vm_compute. reflexivity.
    + vm_compute. reflexivity.
    + split; [exact Hfirst|].
      apply Hsecond; reflexivity.
Defined.

(** C6, as stated, fails: the transaction is fetched in a resolution that
    starts at time 1000; a's answer is passed over and b's is returned, each
    GET taking two seconds, so the fetch completes at 1004; the entry is
    stamped 1000, which is earlier. *)
Lemma timestamp_precedes_fetch_completion :
  let key : @Key string := _cache_key "tx" ["ab"] [] in
  let done := tx_fetch two_upstreams first_is_garbled ["ab"] [] fresh in
  let r := get_transaction two_upstreams first_is_garbled "ab" fresh in
  r.1 = Ok (PyStr "800000") /\
  (clock done.2 == 1004)%Q /\
  (clock r.2 == 1004)%Q /\
  exists ts,
    _cache r.2 !! key = Some (PyStr "800000", ts) /\
    (ts == 1000)%Q /\
    ~ (clock done.2 <= ts)%Q.
Proof.
  intros key done r. split; [vm_compute; reflexivity|].
  split; [vm_compute; reflexivity|]. split; [vm_compute; reflexivity|].
  exists 1000%Q. split; [vm_compute; reflexivity|].
  split; [reflexivity|]. vm_compute. intros Hle. apply Hle. reflexivity.
Qed.

Lemma stored_timestamp_is_resolution_start_witness :
  let key : @Key string := _cache_key "tx" ["ab"] [] in
  let r := _get_cached_or_fetch two_upstreams "tx"
             (tx_fetch two_upstreams first_is_garbled) ["ab"] [] fresh in
  r.1 = Ok (PyStr "800000") /\
  _cache r.2 !! key = Some (PyStr "800000", clock fresh).
Proof.
  intros key r.
  destruct (stored_timestamp_is_resolution_start two_upstreams "tx"
              (tx_fetch two_upstreams first_is_garbled) ["ab"] [] fresh
              (PyStr "800000")
              (tx_fetch two_upstreams first_is_garbled ["ab"] [] fresh).2)
    as (Hres & _ & Hentry & _).
  - vm_compute. reflexivity.
  - vm_compute. reflexivity.
  - split; [exact Hres|exact Hentry].
Defined.

Lemma signature_equality_and_isolation_witness :
  let tx : @Key string := _cache_key "tx" ["ab"] [] in
  let block : @Key string := _cache_key "block" ["ab"] [] in
  cache_lookup two_upstreams (cache_store ∅ tx (PyStr "raw") 1000) block 1001 =
  cache_lookup two_upstreams ∅ block 1001.
Proof.
  intros tx block.
  apply (proj2 (proj2 (signature_equality_and_isolation two_upstreams))).
  discriminate.
Defined.

End Instances.

(** * Further properties *)

(** ** The fetch: what is sent, what is logged, how long it takes *)

Section FetchMore.

Context {Arg : Type} `{Countable Arg}.
Variable cfg : Config.
Variable env : Env.

Implicit Type w : World Arg.

Lemma fetch_loop_prefix path bases : forall w,
  let r := fetch_loop cfg env path bases w in
  exists k,
    (k <= length bases)%nat /\
    requests r.2 = requests w ++ urls path (take k bases) /\
    match r.1 with
    | Raise _ => k = length bases
    | Ok _ => (0 < k)%nat
    end.
Proof.
  induction bases as [|a bases IH]; intros w.
  - exists 0%nat. cbn. rewrite app_nil_r. auto.
  - pose proof (attempt_spec cfg env (a +:+ path) w) as (_ & Hreq & _).
    destruct (accepted (http_get env (length (requests w)) (a +:+ path)))
      as [v|] eqn:Ha.
    + rewrite (fetch_loop_return _ _ _ _ _ _ _ Ha). exists 1%nat. cbn.
      split; [lia|]. split; [|lia]. rewrite take_0. exact Hreq.
    + rewrite (fetch_loop_next _ _ _ _ _ _ Ha).
      destruct (IH (attempt cfg env (a +:+ path) w).2) as (k & Hk & Hq & Hr).
      exists (S k). cbn zeta. split; [cbn; lia|]. split; [|destruct (_.1); [lia|cbn; lia]].
      rewrite Hq, Hreq, <- app_assoc. reflexivity.
Qed.

(** Whatever the upstreams do, the GETs of one fetch go to a prefix of the
    configured upstreams: in list order, each upstream once at most, none
    skipped; the prefix is the whole list when the fetch raises, and not
    empty when it returns. *)
Theorem fetch_requests_are_a_prefix path w :
  let r := _fetch_from_upstreams cfg env path w in
  exists k,
    (k <= length (UPSTREAMS cfg))%nat /\
    requests r.2 = requests w ++ urls path (take k (UPSTREAMS cfg)) /\
    match r.1 with
    | Raise _ => k = length (UPSTREAMS cfg)
    | Ok _ => (0 < k)%nat
    end.
Proof. apply fetch_loop_prefix. Qed.

Lemma fetch_loop_silent path bases : forall w,
  (forall j base, bases !! j = Some base ->
     exists resp,
       http_get env (length (requests w) + j)%nat (base +:+ path) = Responded resp /\
       status_code resp <> 200) ->
  let r := fetch_loop cfg env path bases w in
  r.1 = Raise (HTTPException 502 "All upstreams failed") /\
  warnings r.2 = warnings w /\
  length (requests r.2) = (length (requests w) + length bases)%nat.
Proof.
  induction bases as [|a bases IH]; intros w Hall.
  - cbn. auto.
  - destruct (Hall 0%nat a eq_refl) as (resp & Hget & Hstatus).
    rewrite Nat.add_0_r in Hget.
    pose proof (attempt_spec cfg env (a +:+ path) w) as (_ & Hreq & _ & Hwarn).
    rewrite Hget in Hwarn.
    destruct (Z.eqb_spec (status_code resp) 200) as [|_]; [contradiction|].
    rewrite app_nil_r in Hwarn.
    assert (Ha : accepted (http_get env (length (requests w)) (a +:+ path)) = None).
    { rewrite Hget. apply failed_or_rejected_not_accepted. exact Hstatus. }
    rewrite (fetch_loop_next _ _ _ _ _ _ Ha).
    set (w1 := (attempt cfg env (a +:+ path) w).2) in *.
    assert (Hlen : length (requests w1) = S (length (requests w))).
    { rewrite Hreq, length_app. cbn. lia. }
    destruct (IH w1) as (Hr & Hw & Hl).
    + intros j base Hj. rewrite Hlen.
      replace (S (length (requests w)) + j)%nat
        with (length (requests w) + S j)%nat by lia.
      apply Hall. exact Hj.
    + cbn zeta. rewrite Hr, Hw, Hl, Hwarn, Hlen. cbn. split; [reflexivity|].
      split; [reflexivity|lia].
Qed.

(** An upstream that answers with a status other than 200 is passed over
    without a word: when all of them do, the fetch contacts each, raises the
    502 and logs no warning at all. *)
Theorem rejected_statuses_log_nothing path w :
  (forall j base, UPSTREAMS cfg !! j = Some base ->
     exists resp,
       http_get env (length (requests w) + j)%nat (base +:+ path) = Responded resp /\
       status_code resp <> 200) ->
  let r := _fetch_from_upstreams cfg env path w in
  r.1 = Raise (HTTPException 502 "All upstreams failed") /\
  warnings r.2 = warnings w /\
  length (requests r.2) = (length (requests w) + length (UPSTREAMS cfg))%nat.
Proof. apply fetch_loop_silent. Qed.

End FetchMore.

(** ** The cache: what a resolution changes *)

Section CacheMore.

Context {Arg : Type} `{Countable Arg}.
Variable cfg : Config.
Variable env : Env.

Implicit Type w : World Arg.

Lemma fetch_keeps_cache path w :
  _cache (_fetch_from_upstreams cfg env path w).2 = _cache w.
Proof. apply (fetch_loop_outcome cfg env path (UPSTREAMS cfg) w). Qed.

Lemma fetch_raises_only_502 path w e :
  (_fetch_from_upstreams cfg env path w).1 = Raise e ->
  e = HTTPException 502 "All upstreams failed".
Proof.
  intros Hr.
  destruct (fetch_loop_outcome cfg env path (UPSTREAMS cfg) w)
    as ([Hr' | (k & b & v & _ & _ & Hr')] & _);
    unfold _fetch_from_upstreams in Hr; congruence.
Qed.

(** A resolution through the fetch changes the cache at its own key at
    most: every other key keeps its entry, no key is ever removed, and its
    own key either keeps its entry or gets the returned value stamped with
    the time at which the resolution began. *)
Theorem resolution_touches_only_its_key name path_func args kwargs path w :
  path_func args kwargs = _fetch_from_upstreams cfg env path ->
  let key := _cache_key name args kwargs in
  let r := _get_cached_or_fetch cfg name path_func args kwargs w in
  (forall k, k <> key -> _cache r.2 !! k = _cache w !! k) /\
  (forall k, is_Some (_cache w !! k) -> is_Some (_cache r.2 !! k)) /\
  (_cache r.2 = _cache w \/
   exists v, r.1 = Ok v /\ _cache r.2 !! key = Some (v, clock w)).
Proof.
  intros Hpf key r. subst r.
  destruct (cache_lookup cfg (_cache w) key (clock w)) as [v|] eqn:Hlook.
  - rewrite (get_cached_or_fetch_hit cfg _ _ _ _ _ _ Hlook). cbn. auto.
  - rewrite (get_cached_or_fetch_miss cfg _ _ _ _ _ Hlook), Hpf.
    pose proof (fetch_keeps_cache path w) as Hkeep.
    destruct (_fetch_from_upstreams cfg env path w) as [[v|e] w1]; cbn in *.
    + unfold cache_store. rewrite Hkeep. fold key. split; [|split].
      * intros k Hk. apply lookup_insert_ne. intros Heq. apply Hk. symmetry. exact Heq.
      * intros k Hk. destruct (decide (key = k)) as [<-|Hne].
        -- rewrite lookup_insert_eq. eauto.
        -- rewrite lookup_insert_ne by exact Hne. exact Hk.
      * right. exists v. split; [reflexivity|]. apply lookup_insert_eq.
    + rewrite Hkeep. auto.
Qed.

(** With a TTL of zero or less nothing is ever served from the cache: as
    long as no entry is stamped in the future, every resolution runs its
    path function, as if the cache were empty. *)
Theorem nonpositive_ttl_never_hits name path_func args kwargs w :
  (CACHE_TTL cfg <= 0)%Z ->
  (forall v ts, _cache w !! _cache_key name args kwargs = Some (v, ts) ->
     (ts <= clock w)%Q) ->
  _get_cached_or_fetch cfg name path_func args kwargs w =
  match path_func args kwargs w with
  | (Ok result, w1) =>
      (Ok result,
       (set_cache
          (cache_store (_cache w1) (_cache_key name args kwargs) result (clock w))
          w1).2)
  | (Raise e, w1) => (Raise e, w1)
  end.
Proof.
  intros Httl Hpast. apply get_cached_or_fetch_miss.
  destruct (_cache w !! _cache_key name args kwargs) as [[v ts]|] eqn:Hc.
  - apply (cache_lookup_stale cfg _ _ v ts); [exact Hc|].
    specialize (Hpast v ts eq_refl).
    assert (inject_Z (CACHE_TTL cfg) <= 0)%Q.
    { change 0%Q with (inject_Z 0). rewrite <- Zle_Qle. exact Httl. }
    lra.
  - apply cache_lookup_absent. exact Hc.
Qed.

End CacheMore.

(** ** The endpoints as a caller sees them *)

Section EndpointMore.

Variable cfg : Config.
Variable env : Env.

Implicit Type w : World string.

Lemma passthrough_contract name path_func args kwargs path w :
  path_func args kwargs = _fetch_from_upstreams cfg env path ->
  served_or_502 cfg path w (_get_cached_or_fetch cfg name path_func args kwargs w).
Proof.
  intros Hpf. unfold served_or_502.
  destruct (cache_lookup cfg (_cache w) (_cache_key name args kwargs) (clock w))
    as [v|] eqn:Hlook.
  - rewrite (get_cached_or_fetch_hit cfg _ _ _ _ _ _ Hlook). cbn.
    split; [eauto|]. exists 0%nat. rewrite take_0, app_nil_r.
    split; [lia|reflexivity].
  - rewrite (get_cached_or_fetch_miss cfg _ _ _ _ _ Hlook), Hpf.
    pose proof (fetch_keeps_cache cfg env path w) as Hkeep.
    pose proof (fetch_raises_only_502 cfg env path w) as Honly.
    destruct (fetch_loop_prefix cfg env path (UPSTREAMS cfg) w) as (k & Hk & Hreq & _).
    change (fetch_loop cfg env path (UPSTREAMS cfg) w)
      with (_fetch_from_upstreams cfg env path w) in Hreq.
    destruct (_fetch_from_upstreams cfg env path w) as [[v|e] w1]; cbn in *.
    + split; [eauto|]. exists k. auto.
    + rewrite (Honly e eq_refl). split; [auto|]. exists k. auto.
Qed.

(** Each of the five pass-through endpoints either returns a value or
    raises the 502, in which case the cache is as before; and the only GETs
    it sends go, in order, to a prefix of the upstreams, for the one path
    built from its argument. *)
Theorem endpoints_serve_or_raise_502 x w :
  served_or_502 cfg ("/block-height/" +:+ x) w (get_block_hash cfg env x w) /\
  served_or_502 cfg ("/block/" +:+ x) w (get_block cfg env x w) /\
  served_or_502 cfg ("/tx/" +:+ x) w (get_transaction cfg env x w) /\
  served_or_502 cfg ("/address/" +:+ x +:+ "/utxo") w (get_utxo cfg env x w) /\
  served_or_502 cfg ("/address/" +:+ x +:+ "/txs") w (get_address_txs cfg env x w).
Proof.
  unfold get_block_hash, get_block, get_transaction, get_utxo, get_address_txs.
  refine (conj _ (conj _ (conj _ (conj _ _))));
    apply passthrough_contract; reflexivity.
Qed.

(** The tip-height endpoint caches the payload as fetched and coerces it
    at every call: on a miss it stores the raw payload and returns its
    coercion; on a hit it returns the coercion of the stored payload and
    changes nothing; so a hit returns what the miss that filled the entry
    returned. *)
Theorem tip_height_coerces_on_every_call data :
  let key : @Key string := _cache_key "tip_height" [] [] in
  (forall w w1,
     cache_lookup cfg (_cache w) key (clock w) = None ->
     _fetch_from_upstreams cfg env "/blocks/tip/height" w = (Ok data, w1) ->
     let r := get_tip_height cfg env w in
     r.1 = int_or_raw data /\
     _cache r.2 !! key = Some (data, clock w)) /\
  (forall w ts,
     _cache w !! key = Some (data, ts) ->
     (clock w - ts < inject_Z (CACHE_TTL cfg))%Q ->
     get_tip_height cfg env w = (int_or_raw data, w)).
Proof.
  intros key. split.
  - intros w w1 Hmiss Hfetch r. subst r. unfold get_tip_height. unfold_M.
    rewrite (get_cached_or_fetch_miss cfg _ _ _ _ _ Hmiss). cbn [closure0].
    rewrite Hfetch. cbn. split; [reflexivity|].
    unfold cache_store. apply lookup_insert_eq.
  - intros w ts Hentry Hfresh. unfold get_tip_height. unfold_M.
    rewrite (get_cached_or_fetch_hit cfg _ _ _ _ _ data); [reflexivity|].
    exact (cache_lookup_fresh cfg _ _ _ _ _ Hentry Hfresh).
Qed.

End EndpointMore.

(** ** The coercion of the tip height *)

(** Coercing twice is coercing once. *)
Theorem coercion_is_idempotent data v :
  int_or_raw data = Ok v -> int_or_raw v = Ok v.
Proof.
  unfold int_or_raw. intros Hv.
  destruct (py_int data) as [n|[]] eqn:E; try discriminate;
    injection Hv as <-; [reflexivity|rewrite E; reflexivity..].
Qed.

(** ** The content type *)

Lemma prefix_spec needle hay :
  String.prefix needle hay = true <-> exists post, hay = needle +:+ post.
Proof.
  revert hay. induction needle as [|a needle IH]; intros hay.
  - destruct hay; cbn; split; eauto.
  - destruct hay as [|b hay]; cbn.
    + split; [discriminate|]. intros (post & Hp). discriminate Hp.
    + destruct (ascii_dec a b) as [<-|Hne].
      * rewrite IH. split; intros (post & Hp); exists post.
        -- rewrite Hp. reflexivity.
        -- injection Hp as ->. reflexivity.
      * split; [discriminate|]. intros (post & Hp). injection Hp as <- _.
        contradiction.
Qed.

Lemma str_contains_spec needle hay :
  str_contains needle hay = true <->
  exists pre post, hay = pre +:+ needle +:+ post.
Proof.
  induction hay as [|c hay IH]; cbn [str_contains];
    rewrite orb_true_iff, prefix_spec.
  - split.
    + intros [(post & Hp)|Hf]; [|discriminate]. exists EmptyString, post. exact Hp.
    + intros (pre & post & Hp). left.
      destruct pre as [|a pre]; [exists post; exact Hp|discriminate Hp].
  - rewrite IH. split.
    + intros [(post & Hp)|(pre & post & Hp)].
      * exists EmptyString, post. exact Hp.
      * exists (String c pre), post. cbn. rewrite Hp. reflexivity.
    + intros (pre & post & Hp). destruct pre as [|a pre].
      * left. exists post. exact Hp.
      * right. injection Hp as _ Hp. eauto.
Qed.

(** A 200 response is read as JSON exactly when its content-type header
    contains the text application/json somewhere (so a charset parameter
    does not matter, and the match is case sensitive); without the header,
    or with any other value, the body is returned as text. *)
Theorem json_is_declared_by_substring resp :
  (forall pre post,
     content_type_header resp = Some (pre +:+ "application/json" +:+ post) ->
     read_payload resp = json resp) /\
  (content_type_header resp = None ->
   read_payload resp = Ok (PyStr (text resp))) /\
  (forall value,
     content_type_header resp = Some value ->
     (forall pre post, value <> pre +:+ "application/json" +:+ post) ->
     read_payload resp = Ok (PyStr (text resp))).
Proof.
  unfold read_payload. split; [|split].
  - intros pre post ->.
    change (default EmptyString (Some ?x)) with x.
    rewrite (proj2 (str_contains_spec _ _)); [reflexivity|eauto].
  - intros ->. reflexivity.
  - intros value -> Hno.
    change (default EmptyString (Some value)) with value.
    destruct (str_contains "application/json" value) eqn:E; [|reflexivity].
    apply str_contains_spec in E as (pre & post & ->).
    exfalso. exact (Hno pre post eq_refl).
Qed.

(** ** The list of upstreams read at start-up *)

Lemma split_comma_not_nil s : split_comma s <> [].
Proof.
  destruct s as [|c s]; cbn; [discriminate|].
  destruct (Ascii.eqb c ","); [discriminate|].
  destruct (split_comma s); discriminate.
Qed.

(** The pieces are made of the characters of the text other than the
    comma. *)
Lemma split_comma_chars s : forall piece c,
  In piece (split_comma s) -> In c (chars piece) ->
  In c (chars s) /\ c <> ","%char.
Proof.
  induction s as [|a s IH]; intros piece c Hp Hc; cbn in Hp.
  - destruct Hp as [<-|[]]. destruct Hc.
  - destruct (Ascii.eqb_spec a ",") as [->|Hne].
    + destruct Hp as [<-|Hp]; [destruct Hc|].
      destruct (IH piece c Hp Hc). split; [right|]; assumption.
    + destruct (split_comma s) as [|p ps] eqn:Hs;
        [exfalso; exact (split_comma_not_nil s Hs)|].
      destruct Hp as [<-|Hp].
      * destruct Hc as [<-|Hc]; [split; [left; reflexivity|congruence]|].
        destruct (IH p c (or_introl eq_refl) Hc). split; [right|]; assumption.
      * destruct (IH piece c (or_intror Hp) Hc). split; [right|]; assumption.
Qed.

Lemma rstrip_slash_chars u c :
  In c (chars (rstrip_slash u)) -> In c (chars u).
Proof.
  induction u as [|a u IH]; cbn; [auto|].
  destruct (rstrip_slash u) as [|b r] eqn:Hr.
  - destruct (Ascii.eqb a "/"); cbn; [intros []|]. intros [<-|[]]. auto.
  - cbn. intros [<-|Hc]; [auto|]. right. apply IH. exact Hc.
Qed.

Lemma append_slash_not_empty v : v +:+ "/" <> EmptyString.
Proof. destruct v; discriminate. Qed.

Lemma rstrip_slash_no_trailing u : forall v, rstrip_slash u <> v +:+ "/".
Proof.
  induction u as [|a u IH]; intros v; cbn.
  - intros Heq. symmetry in Heq. exact (append_slash_not_empty v Heq).
  - destruct (rstrip_slash u) as [|b r] eqn:Hr.
    + destruct (Ascii.eqb_spec a "/") as [->|Hne].
      * intros Heq. symmetry in Heq. exact (append_slash_not_empty v Heq).
      * destruct v as [|x v]; cbn.
        -- intros [= Ha]. exact (Hne Ha).
        -- intros [= _ Heq]. exact (append_slash_not_empty v (eq_sym Heq)).
    + destruct v as [|x v]; cbn; [discriminate|].
      intros [= _ Heq]. exact (IH v Heq).
Qed.

Lemma rstrip_slash_fixed u :
  (forall v, u <> v +:+ "/") -> rstrip_slash u = u.
Proof.
  induction u as [|a u IH]; intros Hno; cbn; [reflexivity|].
  rewrite IH.
  - destruct u as [|b u]; [|reflexivity].
    destruct (Ascii.eqb_spec a "/") as [->|Hne]; [|reflexivity].
    exfalso. exact (Hno EmptyString eq_refl).
  - intros v ->. exact (Hno (String a v) eq_refl).
Qed.

(** Every upstream of the parsed list is one of the comma-separated pieces
    of the raw value, a piece that is not blank, with its trailing slashes
    removed and nothing else changed (white space around it is kept); it
    contains no comma and does not end with a slash. *)
Theorem parsed_upstreams_are_clean raw u :
  In u (parse_upstreams raw) ->
  (exists piece,
     In piece (split_comma raw) /\ truthy (strip piece) = true /\
     u = rstrip_slash piece) /\
  ~ In ","%char (chars u) /\
  (forall v, u <> v +:+ "/").
Proof.
  unfold parse_upstreams. intros Hu.
  apply in_map_iff in Hu as (piece & <- & Hp).
  apply filter_In in Hp as [Hp Ht].
  split; [eauto|]. split.
  - intros Hc. apply rstrip_slash_chars in Hc.
    destruct (split_comma_chars raw piece _ Hp Hc) as [_ Hne]. congruence.
  - apply rstrip_slash_no_trailing.
Qed.

Lemma split_comma_single u :
  ~ In ","%char (chars u) -> split_comma u = [u].
Proof.
  induction u as [|a u IH]; cbn; intros Hno; [reflexivity|].
  destruct (Ascii.eqb_spec a ",") as [->|Hne]; [exfalso; auto|].
  rewrite IH by auto. reflexivity.
Qed.

Lemma split_comma_append u s :
  ~ In ","%char (chars u) ->
  split_comma (u +:+ String "," s) = u :: split_comma s.
Proof.
  induction u as [|a u IH]; intros Hno; [reflexivity|].
  change (String a u +:+ String "," s) with (String a (u +:+ String "," s)).
  cbn [split_comma chars] in *.
  destruct (Ascii.eqb_spec a ",") as [->|Hne]; [exfalso; apply Hno; left; reflexivity|].
  rewrite IH; [reflexivity|]. intros Hc. apply Hno. right. exact Hc.
Qed.

Lemma split_join l :
  l <> [] -> Forall (fun u => ~ In ","%char (chars u)) l ->
  split_comma (join_comma l) = l.
Proof.
  induction l as [|u l IH]; intros Hne Hall; [congruence|].
  inversion Hall as [|? ? Hu Hl]; subst.
  destruct l as [|u' l]; cbn [join_comma].
  - apply split_comma_single, Hu.
  - rewrite split_comma_append by exact Hu. f_equal.
    apply IH; [discriminate|exact Hl].
Qed.

(** Round trip: a list of base URLs in ASCII none of which is blank,
    contains a comma or ends with a slash, written out with commas in
    between, is read back as it was. *)
Theorem parse_upstreams_of_join l :
  Forall (fun u => Forall (fun c => (nat_of_ascii c < 128)%nat) (chars u) /\
                   ~ In ","%char (chars u) /\
                   truthy (strip u) = true /\
                   forall v, u <> v +:+ "/") l ->
  parse_upstreams (join_comma l) = l.
Proof.
  intros Hall. unfold parse_upstreams.
  destruct l as [|u0 l0]; [reflexivity|].
  set (l := u0 :: l0) in *.
  rewrite split_join; [|discriminate|].
  - clearbody l.
    induction Hall as [|u l (_ & _ & Ht & Hs) Hall IH]; cbn; [reflexivity|].
    rewrite Ht. cbn. rewrite IH, rstrip_slash_fixed by exact Hs. reflexivity.
  - eapply Forall_impl; [exact Hall|]. cbn. tauto.
Qed.

Lemma lstrip_blank u :
  (forall c, In c (chars u) -> is_space c = true) -> lstrip u = EmptyString.
Proof.
  induction u as [|a u IH]; cbn; intros Hall; [reflexivity|].
  rewrite (Hall a) by auto. apply IH. auto.
Qed.

(** A value made of commas and white space only, the empty value included,
    configures no upstream at all (the default is used only when the
    variable is not set); every fetch then raises the 502 at once, with
    nothing sent and nothing changed. *)
Theorem blank_upstreams_fail_at_once raw :
  (forall c, In c (chars raw) -> c = ","%char \/ is_space c = true) ->
  upstreams_from_env (Some raw) = [] /\
  forall (Arg : Type) `(Countable Arg) cfg env path (w : World Arg),
    UPSTREAMS cfg = upstreams_from_env (Some raw) ->
    _fetch_from_upstreams cfg env path w =
    (Raise (HTTPException 502 "All upstreams failed"), w).
Proof.
  intros Hblank.
  assert (Hnil : upstreams_from_env (Some raw) = []).
  { unfold upstreams_from_env, parse_upstreams.
    change (default _ (Some raw)) with raw.
    assert (Hall : forall piece, In piece (split_comma raw) ->
                     truthy (strip piece) = false).
    { intros piece Hp. unfold strip. rewrite lstrip_blank; [reflexivity|].
      intros c Hc. destruct (split_comma_chars raw piece c Hp Hc) as [Hin Hne].
      destruct (Hblank c Hin); [contradiction|assumption]. }
    induction (split_comma raw) as [|p ps IH]; cbn; [reflexivity|].
    rewrite (Hall p) by (left; reflexivity). apply IH.
    intros piece Hp. apply Hall. right. exact Hp. }
  split; [exact Hnil|].
  intros Arg ? ? cfg env path w Hcfg. unfold _fetch_from_upstreams.
  rewrite Hcfg, Hnil. reflexivity.
Qed.

(** ** The rate gate: exclusion, throughput, progress *)

Section GateMore.

Import RateGate.

Variable cfg : Config.

Ltac insert_cases Hl :=
  apply list_lookup_insert_Some in Hl as [(<- & Hl & _)|(? & Hl)];
  [simplify_eq/=|].

Lemma lock_inv_init n t0 l0 : lock_inv (init n t0 l0).
Proof.
  split; cbn.
  - intros i p Hi Hp. apply lookup_replicate in Hi as [-> _]. discriminate.
  - discriminate.
Qed.

Lemma lock_inv_set_inside s i p q :
  lock_inv s -> calls s !! i = Some p ->
  in_gate p = true -> in_gate q = true ->
  lock_inv (set_call i q s).
Proof.
  intros [Hin Hheld] Hi Hp Hq. split; cbn.
  - intros j r Hj Hr. insert_cases Hj; eauto.
  - intros j Hj. destruct (Hheld j Hj) as (r & Hr & Hg).
    destruct (decide (i = j)) as [<-|Hne].
    + exists q. split; [|exact Hq].
      apply list_lookup_insert_eq. eapply lookup_lt_Some, Hi.
    + exists r. rewrite list_lookup_insert_ne by exact Hne. auto.
Qed.

Lemma lock_inv_step a s lbl s' :
  lock_inv s -> exec cfg a s = Some (lbl, s') -> lock_inv s'.
Proof.
  intros Hinv Hexec. destruct a as [d|i]; cbn in Hexec.
  - destruct (Qle_bool 0 d); [|discriminate]. injection Hexec as <- <-.
    destruct Hinv as [Hin Hheld]. split; cbn; eauto.
  - destruct (calls s !! i) as [[| |until| |t]|] eqn:Hi; try discriminate.
    + destruct (Qle_bool (RATE_LIMIT_RPS cfg) 0).
      * injection Hexec as <- <-. destruct Hinv as [Hin Hheld]. split; cbn.
        -- intros j r Hj Hr. insert_cases Hj. eauto.
        -- intros j Hj. destruct (Hheld j Hj) as (r & Hr & Hg).
           exists r. split; [|exact Hg].
           rewrite list_lookup_insert_ne; [exact Hr|].
           intros <-. rewrite Hi in Hr. injection Hr as <-. discriminate.
      * destruct (holder s) eqn:Hfree; [discriminate|].
        injection Hexec as <- <-. destruct Hinv as [Hin Hheld]. split; cbn.
        -- intros j r Hj Hr. insert_cases Hj; [reflexivity|].
           rewrite (Hin j r Hj Hr) in Hfree. discriminate.
        -- intros j [= <-]. exists Locked. split; [|reflexivity].
           apply list_lookup_insert_eq. eapply lookup_lt_Some, Hi.
    + injection Hexec as <- <-.
      apply (lock_inv_set_inside s i Locked); auto.
      destruct (Qlt_bool _ _); reflexivity.
    + destruct (Qle_bool until (time s)); [|discriminate].
      injection Hexec as <- <-.
      apply (lock_inv_set_inside s i (Sleeping until)); auto.
    + injection Hexec as <- <-.
      pose proof (lock_inside s Hinv i Waking Hi eq_refl) as Hhold.
      destruct Hinv as [Hin Hheld]. split; cbn; [|discriminate].
      intros j r Hj Hr. insert_cases Hj.
      rewrite (Hin j r Hj Hr) in Hhold. congruence.
Qed.

Lemma lock_inv_run schedule : forall s s',
  lock_inv s -> run cfg schedule s = Some s' -> lock_inv s'.
Proof.
  induction schedule as [|a rest IH]; intros s s' Hinv Hrun; cbn in Hrun.
  - injection Hrun as <-. exact Hinv.
  - destruct (exec cfg a s) as [[lbl s1]|] eqn:Hexec; [|discriminate].
    eapply IH; [|exact Hrun]. eapply lock_inv_step; eassumption.
Qed.

(** Whatever the rate and the schedule, at most one call is between
    taking the lock and returning, and that call is the holder of the lock;
    while the lock is free, no call is inside. *)
Theorem gate_mutual_exclusion n t0 l0 schedule s :
  run cfg schedule (init n t0 l0) = Some s ->
  (forall i j p q,
     calls s !! i = Some p -> calls s !! j = Some q ->
     in_gate p = true -> in_gate q = true ->
     i = j /\ holder s = Some i) /\
  (holder s = None ->
   forall i p, calls s !! i = Some p -> in_gate p = false).
Proof.
  intros Hrun.
  pose proof (lock_inv_run schedule _ _ (lock_inv_init n t0 l0) Hrun)
    as [Hin Hheld].
  split.
  - intros i j p q Hi Hj Hp Hq.
    pose proof (Hin i p Hi Hp) as Hhi. pose proof (Hin j q Hj Hq) as Hhj.
    split; [congruence|exact Hhi].
  - intros Hfree i p Hi. destruct (in_gate p) eqn:Hp; [|reflexivity].
    rewrite (Hin i p Hi Hp) in Hfree. discriminate.
Qed.

Lemma stamp_step a s lbl s' :
  (last_call s <= time s)%Q -> exec cfg a s = Some (lbl, s') ->
  (last_call s' <= time s')%Q /\ (last_call s <= last_call s')%Q.
Proof.
  intros Hpast Hexec. destruct a as [d|i]; cbn in Hexec.
  - destruct (Qle_bool 0 d) eqn:Hd; [|discriminate].
    apply Qle_bool_iff in Hd. injection Hexec as <- <-. cbn. split; lra.
  - destruct (calls s !! i) as [[| |until| |t]|]; try discriminate.
    + destruct (Qle_bool (RATE_LIMIT_RPS cfg) 0);
        [|destruct (holder s); [discriminate|]];
        injection Hexec as <- <-; cbn; split; lra.
    + injection Hexec as <- <-. cbn. split; lra.
    + destruct (Qle_bool until (time s)); [|discriminate].
      injection Hexec as <- <-. cbn. split; lra.
    + injection Hexec as <- <-. cbn. split; lra.
Qed.

Lemma stamp_run schedule : forall s s',
  (last_call s <= time s)%Q -> run cfg schedule s = Some s' ->
  (last_call s' <= time s')%Q /\ (last_call s <= last_call s')%Q.
Proof.
  induction schedule as [|a rest IH]; intros s s' Hpast Hrun; cbn in Hrun.
  - injection Hrun as <-. split; [exact Hpast|lra].
  - destruct (exec cfg a s) as [[lbl s1]|] eqn:Hexec; [|discriminate].
    destruct (stamp_step a s lbl s1 Hpast Hexec) as [Hpast1 Hmono1].
    destruct (IH s1 s' Hpast1 Hrun) as [Hpast' Hmono']. split; [exact Hpast'|lra].
Qed.

Lemma touch_by_holder a s lbl s' i :
  lock_inv s -> exec cfg a s = Some (lbl, s') -> touches lbl i ->
  holder s = Some i.
Proof.
  intros Hinv Hexec Htouch. destruct a as [d|k]; cbn in Hexec.
  - destruct (Qle_bool 0 d); [|discriminate]. injection Hexec as <- <-.
    destruct Htouch; discriminate.
  - destruct (calls s !! k) as [[| |until| |t]|] eqn:Hk; try discriminate.
    + destruct (Qle_bool (RATE_LIMIT_RPS cfg) 0);
        [|destruct (holder s); [discriminate|]];
        injection Hexec as <- <-; destruct Htouch; discriminate.
    + injection Hexec as <- <-.
      destruct Htouch as [[= <-]|]; [|discriminate].
      exact (lock_inside s Hinv k _ Hk eq_refl).
    + destruct (Qle_bool until (time s)); [|discriminate].
      injection Hexec as <- <-. destruct Htouch; discriminate.
    + injection Hexec as <- <-.
      destruct Htouch as [|[= <-]]; [discriminate|].
      exact (lock_inside s Hinv k _ Hk eq_refl).
Qed.

(** Whatever the rate and the schedule of the concurrent calls, every step
    that reads or writes the time stamp is a step of the call that holds the
    lock.  With a rate of zero or less a call does not go near the lock or
    the time stamp: it returns in one step whoever holds the lock, and the
    call of a coroutine on its own returns with the world as it was. *)
Theorem gate_stamp_under_lock n t0 l0 schedule s :
  run cfg schedule (init n t0 l0) = Some s ->
  (forall a lbl s' i,
     exec cfg a s = Some (lbl, s') -> touches lbl i -> holder s = Some i) /\
  ((RATE_LIMIT_RPS cfg <= 0)%Q ->
   (forall i, calls s !! i = Some Start ->
      exec cfg (Run i) s = Some (Silent, set_call i (Done (time s)) s)) /\
   (forall (Arg : Type) `(Countable Arg) env (w : World Arg),
      _rate_limit cfg env w = (Ok tt, w))).
Proof.
  intros Hrun.
  pose proof (lock_inv_run schedule _ _ (lock_inv_init n t0 l0) Hrun) as Hlock.
  split.
  - intros a lbl s' i Hexec Ht. exact (touch_by_holder a s lbl s' i Hlock Hexec Ht).
  - intros HR. apply Qle_bool_iff in HR. split.
    + intros i Hi. cbn. rewrite Hi, HR. reflexivity.
    + intros Arg ? ? env w. unfold _rate_limit. rewrite HR. reflexivity.
Qed.

(** As long as the clock does not run backwards (the schedules only let time
    pass forwards) and the gate starts with a time stamp that is not in the
    future, the time stamp never goes back, whatever the rate and the
    schedule: it is never ahead of the clock, and no step decreases it. *)
Theorem gate_stamp_never_goes_back n t0 l0 schedule s :
  (l0 <= t0)%Q ->
  run cfg schedule (init n t0 l0) = Some s ->
  (l0 <= last_call s)%Q /\
  (last_call s <= time s)%Q /\
  (forall a lbl s',
     exec cfg a s = Some (lbl, s') -> (last_call s <= last_call s')%Q).
Proof.
  intros Hle Hrun.
  destruct (stamp_run schedule (init n t0 l0) s Hle Hrun) as [Hpast Hmono].
  split; [exact Hmono|]. split; [exact Hpast|].
  intros a lbl s' Hexec. apply (stamp_step a s lbl s' Hpast Hexec).
Qed.

End GateMore.

(** ** How the tip-height endpoint can fail *)

Section TipHeightMore.

Variable cfg : Config.
Variable env : Env.

Lemma resolution_result_is_cached {Arg : Type} `{Countable Arg}
    name path_func (args : list Arg) kwargs (w : World Arg) v :
  let r := _get_cached_or_fetch cfg name path_func args kwargs w in
  r.1 = Ok v ->
  exists ts, _cache r.2 !! _cache_key name args kwargs = Some (v, ts).
Proof.
  intros r Hr. subst r.
  destruct (cache_lookup cfg (_cache w) (_cache_key name args kwargs) (clock w))
    as [v0|] eqn:Hlook.
  - rewrite (get_cached_or_fetch_hit cfg _ _ _ _ _ _ Hlook) in *. cbn in *.
    injection Hr as ->.
    destruct (cache_lookup_Some cfg _ _ _ _ Hlook) as (ts & Hts & _). eauto.
  - rewrite (get_cached_or_fetch_miss cfg _ _ _ _ _ Hlook) in *.
    destruct (path_func args kwargs w) as [[v0|e] w1]; cbn in *; [|discriminate].
    injection Hr as ->. exists (clock w). unfold cache_store.
    apply lookup_insert_eq.
Qed.

(** The tip-height endpoint raises in two ways only: the 502 of the
    exhausted upstreams, with the cache as it was; or the OverflowError of
    the coercion, and then the payload is an infinite float and it is that
    payload which the cache holds for the tip height. *)
Theorem tip_height_failures w e :
  let r := get_tip_height cfg env w in
  r.1 = Raise e ->
  (e = HTTPException 502 "All upstreams failed" /\ _cache r.2 = _cache w) \/
  (e = OverflowError /\
   exists s ts,
     _cache r.2 !! (_cache_key "tip_height" [] [] : @Key string) =
     Some (PyFloat (S754_infinity s), ts)).
Proof.
  intros r. subst r. unfold get_tip_height. unfold_M.
  set (fetch := closure0 (_fetch_from_upstreams cfg env "/blocks/tip/height")).
  pose proof (passthrough_contract cfg env "tip_height" fetch [] []
                "/blocks/tip/height" w eq_refl) as [Hserved _].
  pose proof (resolution_result_is_cached "tip_height" fetch [] [] w) as Hcached.
  destruct (_get_cached_or_fetch cfg "tip_height" fetch [] [] w)
    as [[data|e0] w1]; cbn in *.
  - intros Hraise. right.
    destruct (Hcached data eq_refl) as (ts & Hts).
    pose proof (int_or_raw_cases data) as Hcases. unfold lift in Hraise.
    cbn in Hraise.
    destruct (py_int data) as [n|e1]; [congruence|].
    destruct Hcases as [Hok | ((s & ->) & Hov)]; [congruence|].
    rewrite Hov in Hraise. injection Hraise as <-. eauto.
  - intros [= <-]. left.
    destruct Hserved as [(v & Hv) | [[= ->] Hcache]]; [discriminate|auto].
Qed.

End TipHeightMore.

(** * Further instances *)

Section MoreInstances.

Import Scenario.
Local Open Scope string_scope.
Local Open Scope list_scope.

Lemma rejected_statuses_log_nothing_witness :
  let r := _fetch_from_upstreams two_upstreams all_rejecting "/tx/ab" fresh in
  r.1 = Raise (HTTPException 502 "All upstreams failed") /\
  warnings r.2 = [] /\
  length (requests r.2) = 2%nat.
Proof.
  apply (rejected_statuses_log_nothing (Arg := string)
           two_upstreams all_rejecting "/tx/ab" fresh).
  intros j base Hj. eexists. split; [reflexivity|discriminate].
Defined.

Lemma resolution_touches_only_its_key_witness :
  let r := _get_cached_or_fetch two_upstreams "block"
             (closure1 "bh" (fun bh =>
                _fetch_from_upstreams two_upstreams first_is_garbled
                  ("/block/" +:+ bh)))
             ["00ff"] [] just_cached in
  _cache r.2 !! _cache_key "tx" ["ab"] [] =
  _cache just_cached !! _cache_key "tx" ["ab"] [].
Proof.
  intros r.
  apply (proj1 (resolution_touches_only_its_key two_upstreams first_is_garbled
                  "block" _ ["00ff"] [] "/block/00ff" just_cached eq_refl)).
  discriminate.
Defined.

Lemma nonpositive_ttl_never_hits_witness :
  (_get_cached_or_fetch no_caching "tx" (tx_fetch no_caching first_is_garbled)
     ["ab"] [] just_cached).1 = Ok (PyStr "800000").
Proof.
  rewrite (nonpositive_ttl_never_hits no_caching "tx"
             (tx_fetch no_caching first_is_garbled) ["ab"] [] just_cached).
  - vm_compute. reflexivity.
  - discriminate.
  - intros v ts Hentry. vm_compute in Hentry. injection Hentry as _ <-.
    discriminate.
Defined.

Lemma cache_key_order_independent_witness :
  _cache_key "address_txs" ["bc1q"] [("limit", "25"); ("after", "ab")] =
  _cache_key "address_txs" ["bc1q"] [("after", "ab"); ("limit", "25")].
Proof.
  apply (cache_key_order_independent (Arg := string)).
  - cbn. apply NoDup_cons. split; [|apply NoDup_singleton].
    intros Hin. apply list_elem_of_singleton in Hin. discriminate Hin.
  - apply Permutation_swap.
Defined.

Lemma tip_height_coerces_on_every_call_witness :
  let r := get_tip_height two_upstreams first_is_garbled fresh in
  r.1 = int_or_raw (PyStr "800000") /\
  _cache r.2 !! _cache_key "tip_height" [] [] = Some (PyStr "800000", clock fresh).
Proof.
  apply (proj1 (tip_height_coerces_on_every_call two_upstreams first_is_garbled
                  (PyStr "800000")) fresh
           (_fetch_from_upstreams two_upstreams first_is_garbled
              "/blocks/tip/height" fresh).2).
  - vm_compute. reflexivity.
  - vm_compute. reflexivity.
Defined.

Lemma coercion_is_idempotent_witness :
  int_or_raw (PyInt 800000) = Ok (PyInt 800000).
Proof.
  apply (coercion_is_idempotent (PyStr " 800000 ")). reflexivity.
Defined.

Lemma json_is_declared_by_substring_witness :
  let resp := {| status_code := 200;
                 content_type_header := Some "application/json; charset=utf-8";
                 text := "[]";
                 json := Ok (PyList []) |} in
  read_payload resp = Ok (PyList []).
Proof.
  intros resp.
  apply (proj1 (json_is_declared_by_substring resp) "" "; charset=utf-8").
  reflexivity.
Defined.

Lemma parsed_upstreams_are_clean_witness :
  ~ In ","%char (chars " https://b.example/api") /\
  forall v, " https://b.example/api" <> v +:+ "/".
Proof.
  apply (parsed_upstreams_are_clean
           "https://a.example/api/, https://b.example/api//").
  right. left. reflexivity.
Defined.

Lemma parse_upstreams_of_join_witness :
  parse_upstreams "https://a.example/api,https://b.example/api" =
  ["https://a.example/api"; "https://b.example/api"].
Proof.
  apply (parse_upstreams_of_join
           ["https://a.example/api"; "https://b.example/api"]).
  apply List.Forall_cons; [|apply List.Forall_cons; [|apply List.Forall_nil]].
  - split; [cbn [chars]; repeat (apply List.Forall_cons; [vm_compute; lia|]); apply List.Forall_nil|].
    split; [vm_compute; intuition discriminate|].
    split; [reflexivity|].
    exact (rstrip_slash_no_trailing "https://a.example/api").
  - split; [cbn [chars]; repeat (apply List.Forall_cons; [vm_compute; lia|]); apply List.Forall_nil|].
    split; [vm_compute; intuition discriminate|].
    split; [reflexivity|].
    exact (rstrip_slash_no_trailing "https://b.example/api").
Defined.

Lemma blank_upstreams_fail_at_once_witness :
  upstreams_from_env (Some " , ,") = [].
Proof.
  apply (blank_upstreams_fail_at_once " , ,").
  intros c Hc. cbn in Hc.
  repeat (destruct Hc as [<-|Hc]; [auto|]). destruct Hc.
Defined.

Lemma gate_mutual_exclusion_witness :
  0%nat = 0%nat /\ RateGate.holder first_inside = Some 0%nat.
Proof.
  apply (proj1 (gate_mutual_exclusion two_upstreams 2 1000 0
                  [RateGate.Run 0; RateGate.Run 0] first_inside eq_refl)
           0%nat 0%nat RateGate.Waking RateGate.Waking);
    reflexivity.
Defined.

Lemma tip_height_failures_witness :
  exists s ts,
    _cache (get_tip_height two_upstreams answers_infinity fresh).2
      !! (_cache_key "tip_height" [] [] : @Key string) =
    Some (PyFloat (S754_infinity s), ts).
Proof.
  destruct (tip_height_failures two_upstreams answers_infinity fresh
              OverflowError) as [[Habs _]|[_ Hentry]].
  - vm_compute. reflexivity.
  - discriminate Habs.
  - exact Hentry.
Defined.

Lemma gate_stamp_under_lock_witness :
  RateGate.holder first_inside = Some 0%nat.
Proof.
  apply (proj1 (gate_stamp_under_lock two_upstreams 2 1000 0
                  [RateGate.Run 0; RateGate.Run 0] first_inside eq_refl)
           (RateGate.Run 0) (RateGate.WritesLast 0)
           (RateGate.Build_state 1000 1000 None
              [RateGate.Done 1000; RateGate.Start])).
  - reflexivity.
  - right. reflexivity.
Defined.

Lemma gate_stamp_never_goes_back_witness :
  (0 <= RateGate.last_call first_inside)%Q /\
  (RateGate.last_call first_inside <= RateGate.time first_inside)%Q.
Proof.
  destruct (gate_stamp_never_goes_back two_upstreams 2 1000 0
              [RateGate.Run 0; RateGate.Run 0] first_inside)
    as (Hfrom & Hpast & _).
  - discriminate.
  - reflexivity.
  - split; [exact Hfrom|exact Hpast].
Defined.

End MoreInstances.
